(** * seekoff: the post-set resolution and enrichment pipeline

    A shallow embedding of [lib/elasticReader.js]: the stemmed word matcher
    ([makeDoesMatch]), the post-set resolver ([getAllPostIds]), the vote
    aggregator ([totalVotes]), the answer extender ([extendId],
    [extendAnswersFromQuestions]) and the per-record write callbacks of
    [indexFile] and [indexFromPostIds].

    Conventions of the embedding.
    - A JavaScript [Set] of ids is a [gset Z]; the vote [Map] is a
      [gmap Z Z]; counters are unbounded integers.
    - A JavaScript string is a [string] of 8-bit code units (texts in the
      range U+0000..U+00FF).
    - Code that can throw runs in the exception monad [exc]; an [await]ed
      promise that rejects is a [Throw].
    - The npm packages [html2plaintext] and [porter-stemmer] and the
      repository's search-index client are interfaces ([TextLibs],
      [ElasticClient]). *)

From Stdlib Require Import ZArith List String Ascii Bool Lia Permutation.
From stdpp Require Import gmap strings list fin_maps.

Local Open Scope string_scope.
Local Open Scope list_scope.
Local Open Scope Z_scope.
#[local] Set Warnings "-register-all,-clear-no-such-hyp".

(* ===================================================================== *)
(** * Part I: definitions                                                *)
(* ===================================================================== *)

(** ** JavaScript values and exceptions *)

Inductive jsval : Type :=
| JUndefined
| JNull
| JStr (s : string)
| JNum (n : Z)
| JArray (l : list jsval).

(** [!!v] *)
Definition truthy (v : jsval) : bool :=
  match v with
  | JUndefined | JNull => false
  | JStr s => negb (String.eqb s "")
  | JNum n => negb (n =? 0)
  | JArray _ => true
  end.

(** [a || b] *)
Definition js_or (a b : jsval) : jsval := if truthy a then a else b.

(** The outcome of code that may throw; [Throw msg] carries [err.message]. *)
Set Implicit Arguments.
Set Contextual Implicit.
Set Maximal Implicit Insertion.
Inductive exc (A : Type) : Type :=
| Ok (a : A)
| Throw (msg : string).
Unset Maximal Implicit Insertion.
Unset Contextual Implicit.
Unset Implicit Arguments.

#[export] Instance exc_ret : MRet exc := fun A a => Ok a.
#[export] Instance exc_bind : MBind exc := fun A B f m =>
  match m with
  | Ok a => f a
  | Throw msg => Throw msg
  end.
#[export] Instance exc_fmap : FMap exc := fun A B f m =>
  match m with
  | Ok a => Ok (f a)
  | Throw msg => Throw msg
  end.

(** ** Records of the dump *)

(* Definitions of integer field values *)
Definition POSTTYPEID_QUESTION : Z := 1.
Definition POSTTYPEID_ANSWER : Z := 2.
Definition VOTETYPEID_UPMOD : Z := 2.
Definition VOTETYPEID_DOWNMOD : Z := 3.

Module Post.
(** A [sepost] line object. Numeric fields carry their numeric value
    (the comparisons of the source are [==] against numbers). *)
Record t : Type := mk {
  Id : Z;
  PostTypeId : Z;
  ParentId : Z;
  OwnerUserId : Z;
  Title : jsval;
  Body : jsval;
  Tags : jsval;
  ViewCount : jsval;
  QuestionTitle : jsval;
  VoteCount : jsval
}.
End Post.

Module PostLink.
Record t : Type := mk { PostId : Z; RelatedPostId : Z }.
End PostLink.

Module Vote.
(** [PostId] is [Number(lineObject.PostId)], [VoteTypeId] the numeric
    value compared with [==] against ['2'] and ['3']. *)
Record t : Type := mk { PostId : Z; VoteTypeId : Z }.
End Vote.

(** Modelled from the spec: the record reader [readFile] of
    [lib/dataSources], which is not part of the sources at hand. It hands
    the records of a dump file to the callback one at a time, in stream
    order, each call completed before the next record is read. *)
Definition readFile {S R : Type} (callback : S -> R -> S) (records : list R) (st : S) : S :=
  fold_left callback records st.

(** ** String primitives used by the matcher *)

Definition inRange (lo hi n : N) : bool := ((lo <=? n) && (n <=? hi))%N.

(** [String.prototype.toLowerCase] on one code unit below U+0100. *)
Definition lowerChar (c : ascii) : ascii :=
  let n := N_of_ascii c in
  if inRange 65 90 n || (inRange 192 222 n && negb (n =? 215)%N)
  then ascii_of_N (n + 32) else c.

Fixpoint toLowerCase (s : string) : string :=
  match s with
  | EmptyString => EmptyString
  | String c s' => String (lowerChar c) (toLowerCase s')
  end.

(** A code unit matched by the regular expression [[^a-z0-9-]]. *)
Definition isSeparator (c : ascii) : bool :=
  let n := N_of_ascii c in
  negb (inRange 97 122 n || inRange 48 57 n || (n =? 45)%N).

Definition isSpace (c : ascii) : bool := (N_of_ascii c =? 32)%N.
Definition isHyphen (c : ascii) : bool := (N_of_ascii c =? 45)%N.

(** [s.split(sep)] for a separator that matches exactly one code unit,
    given as the predicate [p]: the pieces between the matches, empty
    pieces included; the empty string splits into one empty piece. *)
Fixpoint split (p : ascii -> bool) (s : string) : list string :=
  match s with
  | EmptyString => [EmptyString]
  | String c s' =>
      if p c then EmptyString :: split p s'
      else match split p s' with
           | w :: ws => String c w :: ws
           | [] => [String c EmptyString]
           end
  end.

(** [word.includes('-')] *)
Fixpoint includesHyphen (s : string) : bool :=
  match s with
  | EmptyString => false
  | String c s' => isHyphen c || includesHyphen s'
  end.

(** [wordSet.has(word)]; a word set is kept as the list of the words added
    to it (only membership is ever asked of it). *)
Definition has (wordSet : list string) (word : string) : bool :=
  existsb (String.eqb word) wordSet.

(** [(words && words.has(word))], where [None] is a falsy value standing
    in the place of the set. *)
Definition andHas (words : option (list string)) (word : string) : bool :=
  match words with
  | Some wordSet => has wordSet word
  | None => false
  end.

(** ** The stemmed word matcher *)

(** The two npm packages the matcher calls. *)
Class TextLibs : Type := {
  html2plaintext : jsval -> exc string;
  stemmer : string -> exc string
}.

Section Matcher.
Context `{TextLibs}.

(** [stemmedWords(text)]; calling [toLowerCase] on a value that is not
    a string throws a TypeError. *)
Definition stemmedWords (text : jsval) : exc (list string) :=
  match text with
  | JStr s =>
      wordArray ← mapM stemmer (split isSeparator (toLowerCase s));
      subWords ← mapM (fun word =>
                         if includesHyphen word
                         then mapM stemmer (split isHyphen word)
                         else mret []) wordArray;
      mret ((wordArray ++ concat subWords)%list)
  | _ => Throw "text.toLowerCase is not a function"
  end.

(** [textBody.length > 60 ? textBody.substr(0, 60) + '...' : textBody] *)
Definition bodyAsTitle (textBody : jsval) : exc jsval :=
  match textBody with
  | JStr s =>
      if (60 <? String.length s)%nat
      then mret (JStr (String.append (substring 0 60 s) "..."))
      else mret textBody
  | JArray l =>
      if (60 <? length l)%nat
      then Throw "textBody.substr is not a function"
      else mret textBody
  | _ => mret textBody
  end.

(** [v && stemmedWords(html2plaintext(v))] *)
Definition plainWords (v : jsval) : exc (option (list string)) :=
  if truthy v
  then plain ← html2plaintext v; Some <$> stemmedWords (JStr plain)
  else mret None.

(** The body of the [try] block of the matcher. *)
Definition tryMatch (testWords : list string) (isAccept : bool)
    (lineObject : Post.t) : exc bool :=
  let title := js_or (Post.Title lineObject) (JStr "") in
  let textBody := js_or (Post.Body lineObject) (JStr "") in
  title ← (if negb isAccept && negb (truthy title) && truthy textBody
           then bodyAsTitle textBody else mret title);
  titleWords ← plainWords title;
  tagWords ← (if truthy (Post.Tags lineObject)
              then Some <$> stemmedWords (Post.Tags lineObject)
              else mret None);
  bodyWords ← (if isAccept then mret None else plainWords textBody);
  mret (existsb (fun word =>
                   andHas titleWords word
                   || andHas tagWords word
                   || andHas bodyWords word) testWords).

(** The query word list: [testString.toLowerCase().split(' ')] stemmed. *)
Definition testWordsOf (testString : string) : exc (list string) :=
  mapM stemmer (split isSpace (toLowerCase testString)).

(** The matcher returned for the query words [testWords]: the [try]
    block, and [true] from the [catch]. *)
Definition matcher (testWords : list string) (isAccept : bool)
    (lineObject : Post.t) : bool :=
  match tryMatch testWords isAccept lineObject with
  | Ok aHit => aHit
  | Throw _ => true
  end.

Definition makeDoesMatch (testString : string) (isAccept : bool)
    : exc (Post.t -> bool) :=
  if String.eqb testString ""
  then mret (fun _ => isAccept)
  else testWords ← testWordsOf testString;
       mret (matcher testWords isAccept).

End Matcher.

(** ** The post-set resolver *)

(** The three sets built from [postIdsArray] (three distinct [Set]
    objects) and the counter of [getAllPostIds]. *)
Record ResolverState : Type := mkResolver {
  questionIds : gset Z;
  extendedQuestionIds : gset Z;
  postIds : gset Z;
  documentCount : Z
}.

(** [documentCount++; postIds.add(id); extendedQuestionIds.add(id)] *)
Definition addLinked (id : Z) (st : ResolverState) : ResolverState :=
  {| questionIds := questionIds st;
     extendedQuestionIds := {[id]} ∪ extendedQuestionIds st;
     postIds := {[id]} ∪ postIds st;
     documentCount := documentCount st + 1 |}.

(** The callback of the [PostLinks.xml] pass. *)
Definition linkCallback (st : ResolverState) (lineObject : PostLink.t) : ResolverState :=
  let st1 :=
    if bool_decide (PostLink.PostId lineObject ∈ questionIds st)
    then addLinked (PostLink.RelatedPostId lineObject) st else st in
  if bool_decide (PostLink.RelatedPostId lineObject ∈ questionIds st1)
  then addLinked (PostLink.PostId lineObject) st1 else st1.

(** [extendedQuestionIds.delete(id); postIds.delete(id)] *)
Definition rejectQuestion (id : Z) (st : ResolverState) : ResolverState :=
  {| questionIds := questionIds st;
     extendedQuestionIds := extendedQuestionIds st ∖ {[id]};
     postIds := postIds st ∖ {[id]};
     documentCount := documentCount st |}.

(** [postIds.add(id); documentCount++] *)
Definition admitAnswer (id : Z) (st : ResolverState) : ResolverState :=
  {| questionIds := questionIds st;
     extendedQuestionIds := extendedQuestionIds st;
     postIds := {[id]} ∪ postIds st;
     documentCount := documentCount st + 1 |}.

(** The callback of the [Posts.xml] pass. *)
Definition postCallback (shouldReject : Post.t -> bool)
    (st : ResolverState) (lineObject : Post.t) : ResolverState :=
  let st1 :=
    if (Post.PostTypeId lineObject =? POSTTYPEID_QUESTION)
       && bool_decide (Post.Id lineObject ∈ extendedQuestionIds st)
       && shouldReject lineObject
    then rejectQuestion (Post.Id lineObject) st else st in
  if (Post.PostTypeId lineObject =? POSTTYPEID_ANSWER)
     && bool_decide (Post.ParentId lineObject ∈ extendedQuestionIds st1)
     && negb (shouldReject lineObject)
  then admitAnswer (Post.Id lineObject) st1 else st1.

Definition initialResolver (postIdsArray : list Z) : ResolverState :=
  {| questionIds := list_to_set postIdsArray;
     extendedQuestionIds := list_to_set postIdsArray;
     postIds := list_to_set postIdsArray;
     documentCount := 0 |}.

(** The first [readFile]: add related and linked posts. *)
Definition linkPass (st : ResolverState) (postLinks : list PostLink.t) : ResolverState :=
  readFile linkCallback postLinks st.

(** [documentCount = 0] between the two passes. *)
Definition resetCount (st : ResolverState) : ResolverState :=
  {| questionIds := questionIds st;
     extendedQuestionIds := extendedQuestionIds st;
     postIds := postIds st;
     documentCount := 0 |}.

(** The second [readFile]: reject questions, add answers. *)
Definition postPass (shouldReject : Post.t -> bool)
    (st : ResolverState) (posts : list Post.t) : ResolverState :=
  readFile (postCallback shouldReject) posts st.

(** [getAllPostIds] once [Questions.json], [PostLinks.xml] and [Posts.xml]
    are read and the exclude matcher is made; the state it ends in holds
    the returned [[postIds, documentCount, extendedQuestionIds]]. *)
Definition resolvePostIds (shouldReject : Post.t -> bool)
    (postIdsArray : list Z) (postLinks : list PostLink.t) (posts : list Post.t)
    : ResolverState :=
  postPass shouldReject (resetCount (linkPass (initialResolver postIdsArray) postLinks)) posts.

Section GetAllPostIds.
Context `{TextLibs}.

(** [parameters.tagsToExclude] of [lib/parameters]. *)
Variable tagsToExclude : string.

Definition getAllPostIds (postIdsArray : list Z) (postLinks : list PostLink.t)
    (posts : list Post.t) (excludeTags : string) : exc (gset Z * Z * gset Z) :=
  shouldReject ← makeDoesMatch
    (if String.eqb excludeTags "" then tagsToExclude else excludeTags) false;
  let st := resolvePostIds shouldReject postIdsArray postLinks posts in
  mret (postIds st, documentCount st, extendedQuestionIds st).
End GetAllPostIds.

(** ** The vote aggregator *)

Module VoteState.
Record t : Type := mk { voteTotals : gmap Z Z; documentCount : Z }.
End VoteState.

(** The callback of the [Votes.xml] pass. *)
Definition voteCallback (postIds : gset Z) (st : VoteState.t) (lineObject : Vote.t)
    : VoteState.t :=
  let postIdNum := Vote.PostId lineObject in
  if bool_decide (postIdNum ∈ postIds) then
    let '(count, documentCount) :=
      match VoteState.voteTotals st !! postIdNum with
      | Some count => (count, VoteState.documentCount st)
      | None => (0, VoteState.documentCount st + 1)
      end in
    let count :=
      if Vote.VoteTypeId lineObject =? VOTETYPEID_UPMOD then count + 1
      else if Vote.VoteTypeId lineObject =? VOTETYPEID_DOWNMOD then count - 1
      else count in
    {| VoteState.voteTotals := <[postIdNum := count]> (VoteState.voteTotals st);
       VoteState.documentCount := documentCount |}
  else st.

Definition totalVotes (votes : list Vote.t) (postIds : gset Z) : gmap Z Z :=
  VoteState.voteTotals
    (readFile (voteCallback postIds) votes
       {| VoteState.voteTotals := ∅; VoteState.documentCount := 0 |}).

(** The score change the vote aggregator is specified to apply: +1 for an
    upmod, -1 for a downmod, nothing for any other vote type. *)
Definition voteDelta (lineObject : Vote.t) : Z :=
  if Vote.VoteTypeId lineObject =? VOTETYPEID_UPMOD then 1
  else if Vote.VoteTypeId lineObject =? VOTETYPEID_DOWNMOD then -1
  else 0.

(** The net score of post [id] in a vote stream. *)
Fixpoint netScore (id : Z) (votes : list Vote.t) : Z :=
  match votes with
  | [] => 0
  | lineObject :: votes' =>
      (if Vote.PostId lineObject =? id then voteDelta lineObject else 0)
      + netScore id votes'
  end.

(** Whether some vote of the stream is for post [id]. *)
Definition mentions (id : Z) (votes : list Vote.t) : bool :=
  existsb (fun lineObject => Vote.PostId lineObject =? id) votes.

(** ** The search-index client and the index loader *)

(** What [console.log] prints. *)
Inductive LogLine : Type :=
| IgnoredPutDocumentError (e : string)
| FailedToIndexRow (lineObject : Post.t)
| ErrorLine (err : string).

(** The functions of [lib/elasticClient] called on the [sepost] index,
    over the state [Sink] of the index. [search] yields [answers.hits.hits]
    (the [_source] of each hit) for the term query on [ParentId];
    [getDocument] yields [_source] when [found]; the two put functions
    yield the new state of the index and the result or the failure. *)
Class ElasticClient : Type := {
  Sink : Type;
  search : Sink -> Z -> exc (list Post.t);
  getDocument : Sink -> Z -> exc (option Post.t);
  promisePutDocument : Sink -> Post.t -> Sink * exc jsval;
  putDocument : Sink -> Post.t -> Sink * exc jsval
}.

Module ExtendState.
Record t `{ElasticClient} : Type := mk {
  sink : Sink;
  log : list LogLine;
  linesRead : Z;
  totalHits : Z;
  promiseBatch : list jsval
}.
End ExtendState.

Module LoadState.
Record t `{ElasticClient} : Type := mk {
  sink : Sink;
  log : list LogLine;
  documentCount : Z;
  userIds : gset Z
}.
End LoadState.

(** [new Set(array)] in iteration order: first occurrences, in order. *)
Fixpoint setOrder (array : list Z) : list Z :=
  match array with
  | [] => []
  | x :: array' => x :: filter (fun y => negb (y =? x)) (setOrder array')
  end.

Section Loader.
Context `{ElasticClient}.

(** The answer document of a hit with the fields of its question. *)
Definition extendedAnswer (question hit : Post.t) : Post.t :=
  {| Post.Id := Post.Id hit;
     Post.PostTypeId := Post.PostTypeId hit;
     Post.ParentId := Post.ParentId hit;
     Post.OwnerUserId := Post.OwnerUserId hit;
     Post.Title := Post.Title hit;
     Post.Body := Post.Body hit;
     Post.Tags := Post.Tags question;
     Post.ViewCount := Post.ViewCount question;
     Post.QuestionTitle := Post.Title question;
     Post.VoteCount := Post.VoteCount hit |}.

(** One turn of [answers.hits.hits.forEach]: the put is attempted and a
    failure of it is logged and ignored. *)
Definition extendHit (question : Post.t) (acc : Sink * list LogLine * Z)
    (hit : Post.t) : Sink * list LogLine * Z :=
  let '(sink, log, localHits) := acc in
  let localHits := localHits + 1 in
  match promisePutDocument sink (extendedAnswer question hit) with
  | (sink', Ok _) => (sink', log, localHits)
  | (sink', Throw e) => (sink', (log ++ [IgnoredPutDocumentError e])%list, localHits)
  end.

Definition extendId (sink : Sink) (log : list LogLine) (questionId : Z)
    : Sink * list LogLine * exc Z :=
  match search sink questionId with
  | Throw e => (sink, log, Throw e)
  | Ok hits =>
      if negb (length hits =? 0)%nat then
        match getDocument sink questionId with
        | Throw e => (sink, log, Throw e)
        | Ok (Some question) =>
            if Post.PostTypeId question =? POSTTYPEID_QUESTION then
              let '(sink', log', localHits) :=
                fold_left (extendHit question) hits (sink, log, 0) in
              (sink', log', Ok localHits)
            else (sink, log, Ok 0)
        | Ok None => (sink, log, Ok 0)
        end
      else (sink, log, Ok 0)
  end.

(** One turn of the loop over the question ids, when no [onProgress] is
    given. The promise pushed on the batch settles to [undefined]
    whether [extendId] fulfils (its result is added to [totalHits]) or
    rejects (nothing is done). The code starts the [extendId]s of a batch
    one after the other and awaits them together, so their calls of the
    client may interleave; here each [extendId] is run to its end before
    the next one starts, which fixes one order of those calls. What the
    loop does whatever that order is, is [settleStep] below. *)
Definition extendStep (st : ExtendState.t) (questionId : Z) : ExtendState.t :=
  let linesRead := ExtendState.linesRead st + 1 in
  let promiseBatch :=
    if linesRead mod 20 =? 0 then [] else ExtendState.promiseBatch st in
  let '(sink', log', outcome) :=
    extendId (ExtendState.sink st) (ExtendState.log st) questionId in
  {| ExtendState.sink := sink';
     ExtendState.log := log';
     ExtendState.linesRead := linesRead;
     ExtendState.totalHits :=
       match outcome with
       | Ok results => ExtendState.totalHits st + results
       | Throw _ => ExtendState.totalHits st
       end;
     ExtendState.promiseBatch := (promiseBatch ++ [JUndefined])%list |}.

Definition extendLoop (postIdsArray : list Z) (sink : Sink) : ExtendState.t :=
  fold_left extendStep (setOrder postIdsArray)
    {| ExtendState.sink := sink;
       ExtendState.log := [];
       ExtendState.linesRead := 0;
       ExtendState.totalHits := 0;
       ExtendState.promiseBatch := [] |}.

(** The value the promise returned by [extendAnswersFromQuestions]
    resolves to: that of [Promise.all(promiseBatch)]. *)
Definition extendAnswersFromQuestions (postIdsArray : list Z) (sink : Sink) : jsval :=
  JArray (ExtendState.promiseBatch (extendLoop postIdsArray sink)).

(** The callback [indexFile] gives to [readFile], on the [sepost] file. *)
Definition indexFileCallback (st : Sink * list LogLine) (lineObject : Post.t)
    : Sink * list LogLine * jsval :=
  let '(sink, log) := st in
  match putDocument sink lineObject with
  | (sink', Ok result) => (sink', log, result)
  | (sink', Throw message) =>
      if String.prefix "Invalid Id" message
      then (sink', log, JNull)
      else (sink', (log ++ [FailedToIndexRow lineObject; ErrorLine message])%list, JNull)
  end.

(** [lineObject.VoteCount = voteTotals.get(lineObject.Id) || 0] *)
Definition withVoteCount (voteTotals : gmap Z Z) (lineObject : Post.t) : Post.t :=
  {| Post.Id := Post.Id lineObject;
     Post.PostTypeId := Post.PostTypeId lineObject;
     Post.ParentId := Post.ParentId lineObject;
     Post.OwnerUserId := Post.OwnerUserId lineObject;
     Post.Title := Post.Title lineObject;
     Post.Body := Post.Body lineObject;
     Post.Tags := Post.Tags lineObject;
     Post.ViewCount := Post.ViewCount lineObject;
     Post.QuestionTitle := Post.QuestionTitle lineObject;
     Post.VoteCount := JNum (default 0 (voteTotals !! Post.Id lineObject)) |}.

(** The callback [indexFromPostIds] gives to [readFile] when [type] is
    ['sepost']: the promise of [putDocument] is returned as it is. *)
Definition indexFromPostIdsCallback (postIds : gset Z)
    (voteTotals : option (gmap Z Z)) (st : LoadState.t) (lineObject : Post.t)
    : LoadState.t * exc jsval :=
  if bool_decide (Post.Id lineObject ∈ postIds) then
    let lineObject :=
      match voteTotals with
      | Some totals => withVoteCount totals lineObject
      | None => lineObject
      end in
    let '(sink', outcome) := putDocument (LoadState.sink st) lineObject in
    ({| LoadState.sink := sink';
        LoadState.log := LoadState.log st;
        LoadState.documentCount := LoadState.documentCount st + 1;
        LoadState.userIds := {[Post.OwnerUserId lineObject]} ∪ LoadState.userIds st |},
     outcome)
  else (st, Ok JUndefined).

End Loader.

(** ** Notions used to state the properties of the resolver *)

(** [x] is the other endpoint of a link of the stream that has an
    endpoint in [seed]. *)
Definition linkedToSeed (seed : gset Z) (postLinks : list PostLink.t) (x : Z) : Prop :=
  ∃ l, l ∈ postLinks ∧
       ((PostLink.PostId l ∈ seed ∧ x = PostLink.RelatedPostId l)
        ∨ (PostLink.RelatedPostId l ∈ seed ∧ x = PostLink.PostId l)).

(** The record is a question the post pass rejects when it visits it in
    state [st]. *)
Definition rejectedAt (shouldReject : Post.t -> bool) (st : ResolverState)
    (lineObject : Post.t) : Prop :=
  Post.PostTypeId lineObject = POSTTYPEID_QUESTION
  ∧ Post.Id lineObject ∈ extendedQuestionIds st
  ∧ shouldReject lineObject = true.

(** The record is an answer the post pass admits when it visits it in
    state [st]. *)
Definition admittedAt (shouldReject : Post.t -> bool) (st : ResolverState)
    (lineObject : Post.t) : Prop :=
  Post.PostTypeId lineObject = POSTTYPEID_ANSWER
  ∧ Post.ParentId lineObject ∈ extendedQuestionIds st
  ∧ shouldReject lineObject = false.

(** No question record of [records] has the id [x]. *)
Definition noQuestionWithId (x : Z) (records : list Post.t) : Prop :=
  ∀ r, r ∈ records → Post.PostTypeId r = POSTTYPEID_QUESTION → Post.Id r ≠ x.

(** ** Records and matchers of the worked examples *)

(** A post with the fields the resolver and the matcher read. *)
Definition post (Id PostTypeId ParentId : Z) (Title Body Tags : jsval) : Post.t :=
  {| Post.Id := Id; Post.PostTypeId := PostTypeId; Post.ParentId := ParentId;
     Post.OwnerUserId := 0; Post.Title := Title; Post.Body := Body;
     Post.Tags := Tags; Post.ViewCount := JUndefined;
     Post.QuestionTitle := JUndefined; Post.VoteCount := JUndefined |}.

(** Question 1 and its answers 2 and 3. *)
Definition question1 : Post.t :=
  post 1 POSTTYPEID_QUESTION 0 (JStr "Spam") JUndefined JUndefined.
Definition answer2 : Post.t :=
  post 2 POSTTYPEID_ANSWER 1 JUndefined (JStr "first") JUndefined.
Definition answer3 : Post.t :=
  post 3 POSTTYPEID_ANSWER 1 JUndefined (JStr "second") JUndefined.

(** An exclude matcher that matches question 1 only. *)
Definition rejectsPost1 (lineObject : Post.t) : bool := Post.Id lineObject =? 1.

(** ** Notions used to state the properties of the matcher *)

(** The text is empty, or begins or ends with a code unit matched by [p],
    or has two such code units next to each other: the texts that [split]
    cuts into pieces one of which is empty. *)
Definition bordersGap (p : ascii → bool) (s : string) : Prop :=
  s = ""
  ∨ ∃ s1 c s2, s = String.append s1 (String c s2) ∧ p c = true
      ∧ (s1 = "" ∨ s2 = "" ∨ ∃ c' s3, s2 = String c' s3 ∧ p c' = true).

(** A code unit that is outside [[a-z0-9-]] once lower-cased. *)
Definition separatesWords (c : ascii) : bool := isSeparator (lowerChar c).

(** [text] contains a code unit outside [[a-z0-9-]] after lower-casing. *)
Fixpoint containsSeparator (text : string) : bool :=
  match text with
  | EmptyString => false
  | String c text' => separatesWords c || containsSeparator text'
  end.

(** A stand-in for the two packages on the worked examples, whose words
    are all shorter than three characters and whose texts are plain: the
    stemmer returns its word ([porter-stemmer] starts with
    [if (w.length < 3) return w]), and [html2plaintext] returns a string
    without markup as it is. *)
Definition plainLibs : TextLibs :=
  {| html2plaintext := fun v =>
       match v with
       | JStr s => Ok s
       | _ => Throw "html2plaintext: not a string"
       end;
     stemmer := fun word => Ok word |}.

(** A question tagged [a b], without title and body. *)
Definition taggedAB : Post.t :=
  post 5 POSTTYPEID_QUESTION 0 JUndefined JUndefined (JStr "a b").

(** A question whose tags end with a separator. *)
Definition taggedAngle : Post.t :=
  post 6 POSTTYPEID_QUESTION 0 JUndefined JUndefined (JStr "<a>").

(** Questions whose tags have a hyphen at the end of a word, and a hyphen
    between two spaces. *)
Definition taggedHyphen : Post.t :=
  post 7 POSTTYPEID_QUESTION 0 JUndefined JUndefined (JStr "a-").
Definition taggedDash : Post.t :=
  post 8 POSTTYPEID_QUESTION 0 JUndefined JUndefined (JStr "a - b").

(** A question whose [Tags] field is a number. *)
Definition taggedNumber : Post.t :=
  post 1 POSTTYPEID_QUESTION 0 JUndefined JUndefined (JNum 42).

(** ** Notions used to state the properties of the loader *)

(** The sum of a list of counts. *)
Definition sumZ (counts : list Z) : Z := fold_right Z.add 0 counts.

(** The number of promises in [promiseBatch] once [linesRead] question ids
    are processed: the batch is emptied at every twentieth id, before the
    promise of that id is pushed. *)
Definition pendingPromises (linesRead : Z) : nat :=
  Z.to_nat (if linesRead <? 20 then linesRead else linesRead mod 20 + 1).

(** The bookkeeping of the loop of [extendAnswersFromQuestions] apart
    from the index: [linesRead], [totalHits] and [promiseBatch] after one
    more question id, given what the [extendId] of that id settles with.
    The [extendId]s of a batch may run in any order; each of them has
    settled when the batch is emptied and when the promise of the last
    batch resolves. *)
Definition settleStep (st : Z * Z * list jsval) (outcome : exc Z)
    : Z * Z * list jsval :=
  let '(linesRead, totalHits, promiseBatch) := st in
  let linesRead := linesRead + 1 in
  let promiseBatch := if linesRead mod 20 =? 0 then [] else promiseBatch in
  (linesRead,
   match outcome with
   | Ok results => totalHits + results
   | Throw _ => totalHits
   end,
   (promiseBatch ++ [JUndefined])%list).

Definition settledLoop (outcomes : list (exc Z)) : Z * Z * list jsval :=
  fold_left settleStep outcomes (0, 0, []).

(** The counts of the outcomes: what a fulfilled [extendId] returned, and
    0 for a rejected one. *)
Definition fulfilled (outcomes : list (exc Z)) : list Z :=
  map (fun outcome => match outcome with
                      | Ok results => results
                      | Throw _ => 0
                      end) outcomes.

Section LoaderNotions.
Context `{ElasticClient}.

(** What the [extendId] of each question id of [ids] settles with, in
    order, each [extendId] run on the index as the earlier ones left
    it. *)
Fixpoint extendOutcomes (ids : list Z) (sink : Sink) (log : list LogLine)
    : list (exc Z) :=
  match ids with
  | [] => []
  | questionId :: ids' =>
      let '(sink', log', outcome) := extendId sink log questionId in
      outcome :: extendOutcomes ids' sink' log'
  end.

(** The batch holds one [undefined] for each question id processed since
    it was last emptied. *)
Definition batchSettled (st : ExtendState.t) : Prop :=
  0 ≤ ExtendState.linesRead st
  ∧ ExtendState.promiseBatch st
    = repeat JUndefined (pendingPromises (ExtendState.linesRead st)).

(** The number [extendId] fulfils with for each question id of [ids], in
    order, each [extendId] run on the index as the earlier ones left it; a
    rejected [extendId] counts for nothing. *)
Fixpoint extendedCounts (ids : list Z) (sink : Sink) (log : list LogLine) : list Z :=
  match ids with
  | [] => []
  | questionId :: ids' =>
      let '(sink', log', outcome) := extendId sink log questionId in
      match outcome with
      | Ok localHits => localHits
      | Throw _ => 0
      end :: extendedCounts ids' sink' log'
  end.

(** The answer documents whose put [extendId] attempts for [questionId]
    on the index [sink]: the hits of the search, each with the fields of
    the question copied on it, when the question is found and is a
    Question; none otherwise, and none when the search or [getDocument]
    fails. *)
Definition answersToExtend (sink : Sink) (questionId : Z) : list Post.t :=
  match search sink questionId with
  | Ok hits =>
      match getDocument sink questionId with
      | Ok (Some question) =>
          if Post.PostTypeId question =? POSTTYPEID_QUESTION
          then extendedAnswer question <$> hits
          else []
      | _ => []
      end
  | Throw _ => []
  end.

(** The index after [promisePutDocument] is tried on the documents, in
    order, whether each put succeeds or fails. *)
Definition promisePutAll (sink : Sink) (documents : list Post.t) : Sink :=
  fold_left (fun sink document => fst (promisePutDocument sink document))
    documents sink.

(** The lines logged while [promisePutDocument] is tried on the documents:
    one for each put that fails, in order. *)
Fixpoint ignoredPuts (sink : Sink) (documents : list Post.t) : list LogLine :=
  match documents with
  | [] => []
  | document :: documents' =>
      match promisePutDocument sink document with
      | (sink', Ok _) => ignoredPuts sink' documents'
      | (sink', Throw e) => IgnoredPutDocumentError e :: ignoredPuts sink' documents'
      end
  end.

(** The answer documents whose put is attempted in a run over the
    question ids [ids], in order, each question looked up on the index as
    the earlier puts left it. *)
Fixpoint putAttempts (ids : list Z) (sink : Sink) : list Post.t :=
  match ids with
  | [] => []
  | questionId :: ids' =>
      let documents := answersToExtend sink questionId in
      (documents ++ putAttempts ids' (promisePutAll sink documents))%list
  end.

End LoaderNotions.

(** ** Clients of the worked examples *)

(** Modelled from the spec: the sink, "a key/value document store reached
    through putDocument, getDocument, search", kept as the list of its
    documents; [lib/elasticClient] is not part of the sources at hand. A
    put replaces the document of the same id, and a negative id is refused
    as an invalid id; a search returns at most 1000 documents. *)
Definition storePut (sink : list Post.t) (doc : Post.t) : list Post.t * exc jsval :=
  if Post.Id doc <? 0 then (sink, Throw "Invalid Id: negative")
  else (doc :: filter (fun d => negb (Post.Id d =? Post.Id doc)) sink, Ok JUndefined).

(** Modelled from the spec: the client of that document store. *)
Definition storeClient : ElasticClient :=
  {| Sink := list Post.t;
     search := fun sink questionId =>
       Ok (take 1000 (filter (fun d => Post.ParentId d =? questionId) sink));
     getDocument := fun sink id =>
       Ok (find (fun d => Post.Id d =? id) sink);
     promisePutDocument := storePut;
     putDocument := storePut |}.

(** A client whose server cannot be reached: every call fails. *)
Definition downClient : ElasticClient :=
  {| Sink := unit;
     search := fun _ _ => Throw "No Living connections";
     getDocument := fun _ _ => Throw "No Living connections";
     promisePutDocument := fun sink _ => (sink, Throw "No Living connections");
     putDocument := fun sink _ => (sink, Throw "No Living connections") |}.

(** The document store when its index is read-only: searches and lookups
    answer as in [storeClient], every put is refused and changes
    nothing. *)
Definition readOnlyClient : ElasticClient :=
  {| Sink := list Post.t;
     search := @search storeClient;
     getDocument := @getDocument storeClient;
     promisePutDocument := fun sink _ => (sink, Throw "index read-only");
     putDocument := fun sink _ => (sink, Throw "index read-only") |}.

(** A post with the negative id of a placeholder. *)
Definition placeholderPost : Post.t :=
  post (-1) POSTTYPEID_QUESTION 0 (JStr "Community") JUndefined JUndefined.

(** ** The tag-filtered id extractor *)

(** [processPost] of [getQuestionIdsByTags]: [None] is a line object that
    is [null]; a post type that is 0 is falsy. The ids are pushed on the
    array [postIds]. *)
Definition processPost (shouldInclude : Post.t -> bool) (postIds : list Z)
    (lineObject : option Post.t) : list Z :=
  match lineObject with
  | None => postIds
  | Some lineObject =>
      if (Post.PostTypeId lineObject =? 0)
         || negb (Post.PostTypeId lineObject =? POSTTYPEID_QUESTION)
      then postIds
      else if shouldInclude lineObject
           then postIds ++ [Post.Id lineObject]
           else postIds
  end.

(** The [readFile] of [getQuestionIdsByTags], from the empty array. *)
Definition questionIdsMatching (shouldInclude : Post.t -> bool)
    (posts : list (option Post.t)) : list Z :=
  readFile (processPost shouldInclude) posts [].

Section GetQuestionIdsByTags.
Context `{TextLibs}.

(** [parameters.tagsToInclude] of [lib/parameters]. *)
Variable tagsToInclude : string.

Definition getQuestionIdsByTags (posts : list (option Post.t))
    (includeTags : string) : exc (list Z) :=
  shouldInclude ← makeDoesMatch
    (if String.eqb includeTags "" then tagsToInclude else includeTags) true;
  mret (questionIdsMatching shouldInclude posts).
End GetQuestionIdsByTags.

(** ** The other record kinds of [indexFromPostIds] *)

Module Comment.
Record t : Type := mk { PostId : Z; UserId : Z }.
End Comment.

Module User.
Record t : Type := mk { Id : Z }.
End User.

(** [shouldIndexByType], one predicate for each type of document. *)
Definition shouldIndexPost (postIds : gset Z) (lineObject : Post.t) : bool :=
  bool_decide (Post.Id lineObject ∈ postIds).

Definition shouldIndexComment (postIds : gset Z) (lineObject : Comment.t) : bool :=
  bool_decide (Comment.PostId lineObject ∈ postIds).

Definition shouldIndexUser (userIds : gset Z) (lineObject : User.t) : bool :=
  if User.Id lineObject <? 0 then false
  else bool_decide (User.Id lineObject ∈ userIds).

Definition shouldIndexPostLink (postIds : gset Z) (lineObject : PostLink.t) : bool :=
  bool_decide (PostLink.PostId lineObject ∈ postIds)
  || bool_decide (PostLink.RelatedPostId lineObject ∈ postIds).

(** ** The streams of the loader *)

(** The two index functions of [lib/elasticClient] that [indexFile] calls
    before it reads the file. *)
Class IndexAdmin `{ElasticClient} : Type := {
  deleteIndex : Sink -> Sink * exc jsval;
  createIndex : Sink -> Sink * exc jsval
}.

Section LoaderStreams.
Context `{IndexAdmin}.

(** The state of the index and the log once the callback of [indexFile]
    has been called on the records, in order. *)
Definition indexFileCalls (st : Sink * list LogLine) (records : list Post.t)
    : Sink * list LogLine :=
  readFile (fun st lineObject => fst (indexFileCallback st lineObject)) records st.

(** [indexFile] on the [sepost] file: a failure of [deleteIndex] is
    ignored, a failure of [createIndex] rejects, then the records are
    read. *)
Definition indexFile (sink : Sink) (records : list Post.t)
    : Sink * list LogLine * exc unit :=
  let '(sink1, _) := deleteIndex sink in
  match createIndex sink1 with
  | (sink2, Throw e) => (sink2, [], Throw e)
  | (sink2, Ok _) =>
      let '(sink3, log) := indexFileCalls (sink2, []) records in
      (sink3, log, Ok tt)
  end.

(** The state of [indexFromPostIds] (type ['sepost']) once its callback
    has been called on the records, in order, whatever the puts gave. *)
Definition indexFromPostIdsCalls (postIds : gset Z)
    (voteTotals : option (gmap Z Z)) (st : LoadState.t) (records : list Post.t)
    : LoadState.t :=
  readFile (fun st lineObject =>
              fst (indexFromPostIdsCallback postIds voteTotals st lineObject))
    records st.

End LoaderStreams.

(** ** Notions used to state the further properties *)

(** The number of times the link callback counts an endpoint in the seed. *)
Fixpoint seedEndpoints (seed : gset Z) (postLinks : list PostLink.t) : Z :=
  match postLinks with
  | [] => 0
  | l :: postLinks' =>
      (if bool_decide (PostLink.PostId l ∈ seed) then 1 else 0)
      + (if bool_decide (PostLink.RelatedPostId l ∈ seed) then 1 else 0)
      + seedEndpoints seed postLinks'
  end.

(** The number of answer records of the stream whose parent is in
    [parents]. *)
Fixpoint answersOf (parents : gset Z) (posts : list Post.t) : Z :=
  match posts with
  | [] => 0
  | r :: posts' =>
      (if (Post.PostTypeId r =? POSTTYPEID_ANSWER)
          && bool_decide (Post.ParentId r ∈ parents) then 1 else 0)
      + answersOf parents posts'
  end.

(** The number of votes of the stream for post [k]. *)
Fixpoint votesFor (k : Z) (votes : list Vote.t) : Z :=
  match votes with
  | [] => 0
  | lineObject :: votes' =>
      (if Vote.PostId lineObject =? k then 1 else 0) + votesFor k votes'
  end.

(** The number of records of the stream whose id is wanted. *)
Fixpoint wantedPosts (postIds : gset Z) (records : list Post.t) : Z :=
  match records with
  | [] => 0
  | r :: records' =>
      (if bool_decide (Post.Id r ∈ postIds) then 1 else 0)
      + wantedPosts postIds records'
  end.

(** The id a line object contributes to the extractor: its own when it
    is a question that the include matcher accepts. *)
Definition includedId (shouldInclude : Post.t → bool)
    (lineObject : option Post.t) : list Z :=
  match lineObject with
  | Some d =>
      if (Post.PostTypeId d =? POSTTYPEID_QUESTION) && shouldInclude d
      then [Post.Id d] else []
  | None => []
  end.

(** The id of a line object of the stream, when it is one. *)
Definition streamId (lineObject : option Post.t) : option Z :=
  Post.Id <$> lineObject.

(** The document [indexFromPostIds] puts for a wanted post: the post with
    its vote count when the votes were totalled. *)
Definition withVotes (voteTotals : option (gmap Z Z)) (lineObject : Post.t) : Post.t :=
  match voteTotals with
  | Some totals => withVoteCount totals lineObject
  | None => lineObject
  end.

(** The sink after the puts of the records, in order, each on the state
    the one before left. *)
Definition putAll `{ElasticClient} (sink : Sink) (records : list Post.t) : Sink :=
  fold_left (fun sink lineObject => fst (putDocument sink lineObject)) records sink.

(** A client whose puts fail, if they do, for an invalid id only. *)
Definition onlyInvalidIds `{ElasticClient} : Prop :=
  ∀ sink lineObject sink' message,
    putDocument sink lineObject = (sink', Throw message) →
    String.prefix "Invalid Id" message = true.

(* ===================================================================== *)
(** * Part II: properties                                                *)
(* ===================================================================== *)

(** ** The link-expansion pass *)

Lemma readFile_app {S R : Type} (callback : S -> R -> S) (l1 l2 : list R) (st : S) :
  readFile callback (l1 ++ l2) st = readFile callback l2 (readFile callback l1 st).
Proof. unfold readFile. apply fold_left_app. Qed.

Lemma linkCallback_questionIds st l :
  questionIds (linkCallback st l) = questionIds st.
Proof.
  unfold linkCallback. repeat case_bool_decide; reflexivity.
Qed.

Lemma linkPass_questionIds postLinks : ∀ st,
  questionIds (linkPass st postLinks) = questionIds st.
Proof.
  induction postLinks as [|l postLinks IH]; intros st; [reflexivity|].
  cbn. etransitivity; [apply IH|]. apply linkCallback_questionIds.
Qed.

Lemma elem_of_if_singleton (b : bool) (a x : Z) :
  x ∈ (if b then {[a]} else ∅ : gset Z) ↔ b = true ∧ x = a.
Proof. destruct b; set_solver. Qed.

Lemma linkCallback_elem st l x :
  (x ∈ extendedQuestionIds (linkCallback st l)
   ↔ x ∈ extendedQuestionIds st ∨ linkedToSeed (questionIds st) [l] x)
  ∧ (x ∈ postIds (linkCallback st l)
     ↔ x ∈ postIds st ∨ linkedToSeed (questionIds st) [l] x).
Proof.
  assert (Hone : linkedToSeed (questionIds st) [l] x
                 ↔ (PostLink.PostId l ∈ questionIds st ∧ x = PostLink.RelatedPostId l)
                   ∨ (PostLink.RelatedPostId l ∈ questionIds st ∧ x = PostLink.PostId l)).
  { unfold linkedToSeed. split.
    - intros (l' & Hin & Hl'). apply list_elem_of_singleton in Hin. by subst l'.
    - intros Hl. exists l. split; [apply list_elem_of_singleton; reflexivity | exact Hl]. }
  rewrite Hone. unfold linkCallback.
  destruct (bool_decide_reflect (PostLink.PostId l ∈ questionIds st)) as [H1|H1];
    cbn -[elem_of];
    destruct (bool_decide_reflect (PostLink.RelatedPostId l ∈ questionIds st)) as [H2|H2];
    cbn -[elem_of];
    rewrite ?elem_of_union, ?elem_of_singleton; tauto.
Qed.

Lemma linkedToSeed_cons seed l postLinks x :
  linkedToSeed seed (l :: postLinks) x
  ↔ linkedToSeed seed [l] x ∨ linkedToSeed seed postLinks x.
Proof.
  unfold linkedToSeed. split.
  - intros (l' & Hin & Hl'). apply elem_of_cons in Hin as [->|Hin].
    + left. exists l. split; [apply list_elem_of_singleton; reflexivity | exact Hl'].
    + right. exists l'. split; assumption.
  - intros [(l' & Hin & Hl')|(l' & Hin & Hl')]; exists l'; split; try assumption.
    + apply list_elem_of_singleton in Hin. subst l'. apply elem_of_cons. by left.
    + apply elem_of_cons. by right.
Qed.

Lemma linkedToSeed_nil seed x : ¬ linkedToSeed seed [] x.
Proof. intros (l & Hin & _). by apply not_elem_of_nil in Hin. Qed.

Lemma linkPass_elem postLinks : ∀ st x,
  (x ∈ extendedQuestionIds (linkPass st postLinks)
   ↔ x ∈ extendedQuestionIds st ∨ linkedToSeed (questionIds st) postLinks x)
  ∧ (x ∈ postIds (linkPass st postLinks)
     ↔ x ∈ postIds st ∨ linkedToSeed (questionIds st) postLinks x).
Proof.
  induction postLinks as [|l postLinks IH]; intros st x.
  - pose proof (linkedToSeed_nil (questionIds st) x). cbn. tauto.
  - change (linkPass st (l :: postLinks))
      with (linkPass (linkCallback st l) postLinks).
    destruct (IH (linkCallback st l) x) as [IHe IHp].
    destruct (linkCallback_elem st l x) as [He Hp].
    rewrite IHe, IHp, linkCallback_questionIds, He, Hp,
      (linkedToSeed_cons _ l postLinks).
    tauto.
Qed.

(** C2: during the link-expansion pass the seed set [questionIds] is never
    changed, and an id is in [postIds] (in [extendedQuestionIds]) after the
    pass exactly when it was there before or is the other endpoint of a
    link with an endpoint in the original seed: what the pass adds is fixed
    by the seed and the link stream alone, not by the additions made on
    the way. *)
Theorem link_expansion_tests_original_seed
    (st : ResolverState) (postLinks : list PostLink.t) :
  questionIds (linkPass st postLinks) = questionIds st
  ∧ (∀ x, x ∈ postIds (linkPass st postLinks)
          ↔ x ∈ postIds st ∨ linkedToSeed (questionIds st) postLinks x)
  ∧ (∀ x, x ∈ extendedQuestionIds (linkPass st postLinks)
          ↔ x ∈ extendedQuestionIds st
            ∨ linkedToSeed (questionIds st) postLinks x).
Proof.
  split; [apply linkPass_questionIds|].
  split; intros x; apply linkPass_elem.
Qed.

(** C8: running the link-expansion pass a second time over the same link
    stream, with the same seed, leaves [extendedQuestionIds] and [postIds]
    as the first run made them. *)
Theorem link_expansion_idempotent
    (st : ResolverState) (postLinks : list PostLink.t) :
  extendedQuestionIds (linkPass (linkPass st postLinks) postLinks)
    = extendedQuestionIds (linkPass st postLinks)
  ∧ postIds (linkPass (linkPass st postLinks) postLinks)
    = postIds (linkPass st postLinks)
  ∧ questionIds (linkPass (linkPass st postLinks) postLinks) = questionIds st.
Proof.
  split; [|split].
  - apply set_eq. intros x.
    rewrite (proj1 (linkPass_elem postLinks (linkPass st postLinks) x)).
    rewrite linkPass_questionIds.
    rewrite (proj1 (linkPass_elem postLinks st x)). tauto.
  - apply set_eq. intros x.
    rewrite (proj2 (linkPass_elem postLinks (linkPass st postLinks) x)).
    rewrite linkPass_questionIds.
    rewrite (proj2 (linkPass_elem postLinks st x)). tauto.
  - by rewrite !linkPass_questionIds.
Qed.

(** ** The post pass *)

Lemma postCallback_cases shouldReject st r :
  (rejectedAt shouldReject st r
   ∧ postCallback shouldReject st r = rejectQuestion (Post.Id r) st)
  ∨ (admittedAt shouldReject st r
     ∧ postCallback shouldReject st r = admitAnswer (Post.Id r) st)
  ∨ (¬ rejectedAt shouldReject st r ∧ ¬ admittedAt shouldReject st r
     ∧ postCallback shouldReject st r = st).
Proof.
  unfold postCallback, rejectedAt, admittedAt,
    POSTTYPEID_QUESTION, POSTTYPEID_ANSWER.
  destruct (Z.eqb_spec (Post.PostTypeId r) 1) as [Hq|Hq].
  - assert (Ha : (Post.PostTypeId r =? 2) = false) by (apply Z.eqb_neq; lia).
    destruct (bool_decide_reflect (Post.Id r ∈ extendedQuestionIds st)) as [Hin|Hin];
      destruct (shouldReject r) eqn:Hm; cbn; rewrite Ha; cbn;
      [left; tauto | right; right | right; right | right; right];
      (split; [intros (_ & ? & ?); congruence || tauto
              |split; [intros (? & _); lia | reflexivity]]).
  - cbn.
    destruct (Z.eqb_spec (Post.PostTypeId r) 2) as [Ha|Ha]; cbn.
    + destruct (bool_decide_reflect (Post.ParentId r ∈ extendedQuestionIds st)) as [Hin|Hin];
        destruct (shouldReject r) eqn:Hm; cbn;
        [right; right | right; left; tauto | right; right | right; right];
        (split; [intros (? & _); lia
                |split; [intros (_ & ? & ?); congruence || tauto | reflexivity]]).
    + right; right. split; [intros (? & _); lia|].
      split; [intros (? & _); lia | reflexivity].
Qed.

(** Case analysis on what the post callback does at a record, rewriting
    the state after the record. *)
Ltac post_cases shouldReject st r :=
  destruct (postCallback_cases shouldReject st r)
    as [[_ ->]|[[_ ->]|(_ & _ & ->)]]; cbn.

Lemma postCallback_rejected shouldReject st q :
  rejectedAt shouldReject st q →
  postCallback shouldReject st q = rejectQuestion (Post.Id q) st.
Proof.
  intros Hq. destruct (postCallback_cases shouldReject st q)
    as [[_ E]|[[(Ha & _) _]|(Hn & _)]]; [exact E| |tauto].
  destruct Hq as (Hq & _). unfold POSTTYPEID_QUESTION, POSTTYPEID_ANSWER in *. lia.
Qed.

Lemma postCallback_admitted shouldReject st a :
  admittedAt shouldReject st a →
  postCallback shouldReject st a = admitAnswer (Post.Id a) st.
Proof.
  intros Ha. destruct (postCallback_cases shouldReject st a)
    as [[(Hq & _) _]|[[_ E]|(_ & Hn & _)]]; [|exact E|tauto].
  destruct Ha as (Ha & _). unfold POSTTYPEID_QUESTION, POSTTYPEID_ANSWER in *. lia.
Qed.

(** The post pass never adds to [extendedQuestionIds]. *)
Lemma postCallback_extended_shrinks shouldReject st r :
  extendedQuestionIds (postCallback shouldReject st r) ⊆ extendedQuestionIds st.
Proof. post_cases shouldReject st r; set_solver. Qed.

Lemma postPass_extended_shrinks shouldReject posts : ∀ st,
  extendedQuestionIds (postPass shouldReject st posts) ⊆ extendedQuestionIds st.
Proof.
  induction posts as [|r posts IH]; intros st; [done|].
  change (postPass shouldReject st (r :: posts))
    with (postPass shouldReject (postCallback shouldReject st r) posts).
  etransitivity; [apply IH | apply postCallback_extended_shrinks].
Qed.

(** An id leaves [postIds] only at a question record that carries it. *)
Lemma postCallback_keeps shouldReject st r x :
  x ∈ postIds st →
  (Post.PostTypeId r = POSTTYPEID_QUESTION → Post.Id r ≠ x) →
  x ∈ postIds (postCallback shouldReject st r).
Proof.
  intros Hx Hr. destruct (postCallback_cases shouldReject st r)
    as [[(Hq & _) ->]|[[_ ->]|(_ & _ & ->)]]; cbn; [|set_solver|done].
  specialize (Hr Hq). set_solver.
Qed.

Lemma postPass_keeps shouldReject posts x : ∀ st,
  x ∈ postIds st → noQuestionWithId x posts →
  x ∈ postIds (postPass shouldReject st posts).
Proof.
  induction posts as [|r posts IH]; intros st Hx Hno; [done|].
  change (postPass shouldReject st (r :: posts))
    with (postPass shouldReject (postCallback shouldReject st r) posts).
  apply IH.
  - apply postCallback_keeps; [done|]. apply Hno, elem_of_cons. by left.
  - intros r' Hr'. apply Hno, elem_of_cons. by right.
Qed.

Lemma postPass_app shouldReject st l1 l2 :
  postPass shouldReject st (l1 ++ l2)
  = postPass shouldReject (postPass shouldReject st l1) l2.
Proof. apply readFile_app. Qed.

Lemma postPass_cons shouldReject st r l :
  postPass shouldReject st (r :: l)
  = postPass shouldReject (postCallback shouldReject st r) l.
Proof. reflexivity. Qed.

(** C1: in the post pass, a question record whose id is in
    [extendedQuestionIds] when it is visited and that the exclude matcher
    matches has its id removed from [extendedQuestionIds] and from
    [postIds]; an answer record whose [ParentId] is in
    [extendedQuestionIds] when it is visited and that the matcher does not
    match has its id added to [postIds] and the count raised by one. So an
    answer of a rejected question visited after the rejection changes
    nothing (it is not admitted), while an answer admitted before the
    rejection of its parent is still in [postIds] after it, and stays there
    as long as no later question record carries the answer's own id: the
    rejection of a question deletes no id but the question's own. *)
Theorem post_pass_follows_stream_order (shouldReject : Post.t → bool) :
  (∀ st q, rejectedAt shouldReject st q →
     let st' := postCallback shouldReject st q in
     extendedQuestionIds st' = extendedQuestionIds st ∖ {[Post.Id q]}
     ∧ postIds st' = postIds st ∖ {[Post.Id q]}
     ∧ (Post.Id q ∉ extendedQuestionIds st') ∧ (Post.Id q ∉ postIds st')
     ∧ documentCount st' = documentCount st)
  ∧ (∀ st a, admittedAt shouldReject st a →
       let st' := postCallback shouldReject st a in
       postIds st' = {[Post.Id a]} ∪ postIds st
       ∧ Post.Id a ∈ postIds st'
       ∧ documentCount st' = documentCount st + 1
       ∧ extendedQuestionIds st' = extendedQuestionIds st)
  ∧ (∀ st before q between a,
       rejectedAt shouldReject (postPass shouldReject st before) q →
       Post.PostTypeId a = POSTTYPEID_ANSWER →
       Post.ParentId a = Post.Id q →
       let s := postPass shouldReject st (before ++ (q :: between)) in
       postCallback shouldReject s a = s)
  ∧ (∀ st before a between q after,
       admittedAt shouldReject (postPass shouldReject st before) a →
       rejectedAt shouldReject
         (postPass shouldReject st (before ++ (a :: between))) q →
       Post.Id q = Post.ParentId a →
       noQuestionWithId (Post.Id a) (between ++ (q :: after)) →
       let s := postPass shouldReject st (before ++ (a :: (between ++ [q]))) in
       (Post.Id q ∉ extendedQuestionIds s) ∧ (Post.Id q ∉ postIds s)
       ∧ Post.Id a ∈ postIds s
       ∧ Post.Id a ∈ postIds
           (postPass shouldReject st (before ++ (a :: (between ++ (q :: after))))))
  ∧ (∀ st a q,
       rejectedAt shouldReject st q →
       Post.Id q = Post.ParentId a →
       Post.Id a ≠ Post.ParentId a →
       Post.Id a ∈ postIds st →
       Post.Id a ∈ postIds (postCallback shouldReject st q)).
Proof.
  split; [|split; [|split; [|split]]]; cycle 4.
  - intros st a q Hq Hpar Hself Hin.
    apply postCallback_keeps; [exact Hin | congruence].
  - intros st q Hq. cbn zeta. rewrite (postCallback_rejected _ _ _ Hq). cbn.
    repeat split; set_solver.
  - intros st a Ha. cbn zeta. rewrite (postCallback_admitted _ _ _ Ha). cbn.
    repeat split; set_solver.
  - intros st before q between a Hq Hans Hpar. cbn zeta.
    rewrite postPass_app, postPass_cons.
    set (s0 := postPass shouldReject st before) in *.
    set (s := postPass shouldReject (postCallback shouldReject s0 q) between).
    assert (Hout : Post.Id q ∉ extendedQuestionIds s).
    { intros Hin. apply (postPass_extended_shrinks shouldReject between) in Hin.
      rewrite (postCallback_rejected _ _ _ Hq) in Hin. cbn in Hin. set_solver. }
    destruct (postCallback_cases shouldReject s a)
      as [[(Hqa & _) _]|[[(_ & Hin & _) _]|(_ & _ & E)]]; [| |exact E].
    + unfold POSTTYPEID_QUESTION, POSTTYPEID_ANSWER in *. lia.
    + rewrite Hpar in Hin. contradiction.
  - intros st before a between q after Ha Hq Hpar Hno. cbn zeta.
    assert (Hadm : Post.Id a ∈ postIds
              (postPass shouldReject st (before ++ [a]))).
    { rewrite postPass_app. cbn. fold (postPass shouldReject st before).
      rewrite (postCallback_admitted _ _ _ Ha). cbn. set_solver. }
    assert (Hlater : ∀ rest, noQuestionWithId (Post.Id a) rest →
              Post.Id a ∈ postIds
                (postPass shouldReject st (before ++ (a :: rest)))).
    { intros rest Hrest.
      replace (before ++ (a :: rest)) with ((before ++ [a]) ++ rest)
        by (rewrite <- app_assoc; reflexivity).
      rewrite postPass_app. by apply postPass_keeps. }
    replace (before ++ (a :: (between ++ [q])))
      with ((before ++ (a :: between)) ++ [q])
      by (rewrite <- app_assoc; reflexivity).
    rewrite (postPass_app _ _ (before ++ (a :: between)) [q]). cbn.
    fold (postPass shouldReject st (before ++ (a :: between))).
    rewrite (postCallback_rejected _ _ _ Hq). cbn.
    split; [set_solver|]. split; [set_solver|]. split.
    + apply elem_of_difference. split.
      * apply (postPass_keeps shouldReject between (Post.Id a)) with
          (st := postPass shouldReject st (before ++ [a])) in Hadm.
        -- rewrite <- postPass_app, <- app_assoc in Hadm. exact Hadm.
        -- intros r Hr. apply Hno, elem_of_app. by left.
      * intros Heq. apply elem_of_singleton in Heq.
        refine (Hno q _ (proj1 Hq) _); [|congruence].
        apply elem_of_app. right. apply elem_of_cons. by left.
    + by apply Hlater.
Qed.

(** The stream [answer2; question1; answer3] with [rejectsPost1] and the
    seed [{1}]: answer 2 is admitted before its question is rejected and
    stays; answer 3, visited after the rejection, changes nothing. *)
Lemma post_pass_follows_stream_order_witness :
  let st := initialResolver [1] in
  ((1 ∉ extendedQuestionIds (postPass rejectsPost1 st ([] ++ (answer2 :: ([] ++ [question1])))))
   ∧ (1 ∉ postIds (postPass rejectsPost1 st ([] ++ (answer2 :: ([] ++ [question1])))))
   ∧ 2 ∈ postIds (postPass rejectsPost1 st ([] ++ (answer2 :: ([] ++ [question1]))))
   ∧ 2 ∈ postIds (postPass rejectsPost1 st
                    ([] ++ (answer2 :: ([] ++ (question1 :: [answer3]))))))
  ∧ postCallback rejectsPost1
      (postPass rejectsPost1 st ([answer2] ++ (question1 :: []))) answer3
    = postPass rejectsPost1 st ([answer2] ++ (question1 :: [])).
Proof.
  intros st.
  destruct (post_pass_follows_stream_order rejectsPost1)
    as (_ & _ & Hafter & Hbefore & _).
  split.
  - apply (Hbefore st [] answer2 [] question1 [answer3]).
    + by repeat split.
    + by repeat split.
    + reflexivity.
    + intros r Hr Hq. cbn in Hr.
      apply elem_of_cons in Hr as [->|Hr]; [cbn; lia|].
      apply list_elem_of_singleton in Hr. subst r. discriminate Hq.
  - apply (Hafter st [answer2] question1 [] answer3).
    + by repeat split.
    + reflexivity.
    + reflexivity.
Defined.

(** ** The invariant of the resolver *)

Lemma linkCallback_invariant st l :
  extendedQuestionIds st ⊆ postIds st →
  extendedQuestionIds (linkCallback st l) ⊆ postIds (linkCallback st l).
Proof.
  intros Hinv x. destruct (linkCallback_elem st l x) as [-> ->].
  intros [Hx|Hx]; [left; by apply Hinv | by right].
Qed.

Lemma postCallback_invariant shouldReject st r :
  extendedQuestionIds st ⊆ postIds st →
  extendedQuestionIds (postCallback shouldReject st r)
    ⊆ postIds (postCallback shouldReject st r).
Proof.
  intros Hinv. post_cases shouldReject st r; set_solver.
Qed.

Lemma linkPass_invariant postLinks : ∀ st,
  extendedQuestionIds st ⊆ postIds st →
  extendedQuestionIds (linkPass st postLinks) ⊆ postIds (linkPass st postLinks).
Proof.
  induction postLinks as [|l postLinks IH]; intros st Hinv; [exact Hinv|].
  apply (IH (linkCallback st l)). by apply linkCallback_invariant.
Qed.

Lemma postPass_invariant shouldReject posts : ∀ st,
  extendedQuestionIds st ⊆ postIds st →
  extendedQuestionIds (postPass shouldReject st posts)
    ⊆ postIds (postPass shouldReject st posts).
Proof.
  induction posts as [|r posts IH]; intros st Hinv; [exact Hinv|].
  apply (IH (postCallback shouldReject st r)). by apply postCallback_invariant.
Qed.

(** C9: [extendedQuestionIds ⊆ postIds] holds throughout [getAllPostIds]:
    at the start (both sets, like [questionIds], are the set of the ids of
    the seed array), after every record of the link
    stream (an id added to [extendedQuestionIds] is added to [postIds] in
    the same step), after every record of the post stream (an id deleted
    from [extendedQuestionIds] is deleted from [postIds] in the same step,
    an admitted answer is added to [postIds] only), and in the result,
    also as [getAllPostIds] returns it. The streams are written as the
    records read so far followed by the rest. *)
Theorem extended_question_ids_within_post_ids
    (shouldReject : Post.t → bool) (postIdsArray : list Z)
    (linksRead linksLeft : list PostLink.t) (postsRead postsLeft : list Post.t) :
  let start := initialResolver postIdsArray in
  let inLinks := linkPass start linksRead in
  let inPosts :=
    postPass shouldReject
      (resetCount (linkPass start (linksRead ++ linksLeft))) postsRead in
  let result :=
    resolvePostIds shouldReject postIdsArray
      (linksRead ++ linksLeft) (postsRead ++ postsLeft) in
  extendedQuestionIds start = list_to_set postIdsArray
  ∧ postIds start = list_to_set postIdsArray
  ∧ questionIds start = list_to_set postIdsArray
  ∧ extendedQuestionIds inLinks ⊆ postIds inLinks
  ∧ extendedQuestionIds inPosts ⊆ postIds inPosts
  ∧ extendedQuestionIds result ⊆ postIds result
  ∧ (∀ st l id, id ∈ extendedQuestionIds (linkCallback st l) →
                id ∉ extendedQuestionIds st →
                id ∈ postIds (linkCallback st l))
  ∧ (∀ st r id, id ∈ extendedQuestionIds st →
                id ∉ extendedQuestionIds (postCallback shouldReject st r) →
                id ∉ postIds (postCallback shouldReject st r))
  ∧ (∀ st r, extendedQuestionIds (postCallback shouldReject st r)
             ⊆ extendedQuestionIds st)
  ∧ (∀ (libs : TextLibs) tagsToExclude excludeTags returnedPostIds count
       returnedExtended,
       getAllPostIds tagsToExclude postIdsArray (linksRead ++ linksLeft)
         (postsRead ++ postsLeft) excludeTags
       = Ok (returnedPostIds, count, returnedExtended) →
       returnedExtended ⊆ returnedPostIds).
Proof.
  cbn zeta.
  assert (H0 : extendedQuestionIds (initialResolver postIdsArray)
               ⊆ postIds (initialResolver postIdsArray)) by done.
  assert (Hresult : ∀ matches postLinks posts,
            extendedQuestionIds (resolvePostIds matches postIdsArray postLinks posts)
            ⊆ postIds (resolvePostIds matches postIdsArray postLinks posts)).
  { intros. apply postPass_invariant. cbn. by apply linkPass_invariant. }
  split; [reflexivity|].
  split; [reflexivity|].
  split; [reflexivity|].
  split; [by apply linkPass_invariant|].
  split; [apply postPass_invariant; cbn; by apply linkPass_invariant|].
  split; [apply Hresult|].
  split; [|split; [|split]]; cycle 3.
  - intros libs tagsToExclude excludeTags p c e Hget.
    unfold getAllPostIds in Hget.
    destruct (makeDoesMatch _ false) as [matches|]; [|discriminate].
    cbn in Hget. injection Hget as <- _ <-. apply Hresult.
  - intros st l id Hin Hnot.
    destruct (linkCallback_elem st l id) as [He Hp].
    apply Hp. apply He in Hin as [Hin|Hin]; [contradiction | by right].
  - intros st r id Hin Hnot.
    destruct (postCallback_cases shouldReject st r)
      as [[_ E]|[[_ E]|(_ & _ & E)]]; rewrite E in *; cbn in *;
      [set_solver | contradiction | contradiction].
  - intros st r. apply postCallback_extended_shrinks.
Qed.

(** ** The vote aggregator *)

Lemma voteCallback_count (postIds : gset Z) st lineObject :
  Vote.PostId lineObject ∈ postIds →
  VoteState.voteTotals (voteCallback postIds st lineObject)
  = <[Vote.PostId lineObject :=
        default 0 (VoteState.voteTotals st !! Vote.PostId lineObject)
        + voteDelta lineObject]> (VoteState.voteTotals st).
Proof.
  intros Hin. unfold voteCallback, voteDelta.
  rewrite (bool_decide_eq_true_2 _ Hin).
  destruct (VoteState.voteTotals st !! Vote.PostId lineObject) as [count|]; cbn;
    destruct (Vote.VoteTypeId lineObject =? VOTETYPEID_UPMOD);
    [| destruct (Vote.VoteTypeId lineObject =? VOTETYPEID_DOWNMOD) |
     | destruct (Vote.VoteTypeId lineObject =? VOTETYPEID_DOWNMOD)];
    cbn; f_equal; lia.
Qed.

Lemma voteCallback_unwanted (postIds : gset Z) st lineObject :
  Vote.PostId lineObject ∉ postIds → voteCallback postIds st lineObject = st.
Proof.
  intros Hout. unfold voteCallback. by rewrite (bool_decide_eq_false_2 _ Hout).
Qed.

Lemma voteCallback_lookup (postIds : gset Z) st lineObject k :
  VoteState.voteTotals (voteCallback postIds st lineObject) !! k
  = if bool_decide (k ∈ postIds) && (Vote.PostId lineObject =? k)
    then Some (default 0 (VoteState.voteTotals st !! k) + voteDelta lineObject)
    else VoteState.voteTotals st !! k.
Proof.
  destruct (decide (Vote.PostId lineObject ∈ postIds)) as [Hin|Hout].
  - rewrite (voteCallback_count _ _ _ Hin).
    destruct (Z.eqb_spec (Vote.PostId lineObject) k) as [Heq|Hne].
    + rewrite Heq in *.
      rewrite lookup_insert_eq, (bool_decide_eq_true_2 _ Hin). reflexivity.
    + rewrite lookup_insert_ne by exact Hne. by rewrite andb_false_r.
  - rewrite (voteCallback_unwanted _ _ _ Hout).
    destruct (Z.eqb_spec (Vote.PostId lineObject) k) as [Heq|Hne].
    + rewrite Heq in *. by rewrite (bool_decide_eq_false_2 _ Hout).
    + by rewrite andb_false_r.
Qed.

Lemma netScore_unmentioned k votes :
  mentions k votes = false → netScore k votes = 0.
Proof.
  unfold mentions. induction votes as [|lineObject votes IH]; cbn; [done|].
  intros Hm. apply orb_false_elim in Hm as [-> Hm]. rewrite (IH Hm). lia.
Qed.

(** The map after a vote stream, from any starting map. *)
Lemma votePass_lookup (postIds : gset Z) votes k : ∀ st,
  VoteState.voteTotals (readFile (voteCallback postIds) votes st) !! k
  = if bool_decide (k ∈ postIds) && mentions k votes
    then Some (default 0 (VoteState.voteTotals st !! k) + netScore k votes)
    else VoteState.voteTotals st !! k.
Proof.
  induction votes as [|lineObject votes IH]; intros st.
  - cbn. by rewrite andb_false_r.
  - change (readFile (voteCallback postIds) (lineObject :: votes) st)
      with (readFile (voteCallback postIds) votes (voteCallback postIds st lineObject)).
    rewrite IH, voteCallback_lookup.
    change (mentions k (lineObject :: votes))
      with ((Vote.PostId lineObject =? k) || mentions k votes).
    change (netScore k (lineObject :: votes))
      with ((if Vote.PostId lineObject =? k then voteDelta lineObject else 0)
            + netScore k votes).
    destruct (bool_decide (k ∈ postIds)); [|reflexivity].
    rewrite !andb_true_l.
    destruct (mentions k votes) eqn:Hm.
    + rewrite orb_true_r.
      destruct (Vote.PostId lineObject =? k); simpl; f_equal; lia.
    + rewrite orb_false_r, (netScore_unmentioned _ _ Hm).
      destruct (Vote.PostId lineObject =? k); simpl; [f_equal; lia | reflexivity].
Qed.

Lemma totalVotes_lookup votes (postIds : gset Z) id :
  totalVotes votes postIds !! id
  = if bool_decide (id ∈ postIds) && mentions id votes
    then Some (netScore id votes) else None.
Proof.
  unfold totalVotes. rewrite votePass_lookup. cbn. rewrite lookup_empty.
  destruct (bool_decide (id ∈ postIds) && mentions id votes); reflexivity.
Qed.

Lemma netScore_Permutation id votes votes' :
  Permutation votes votes' → netScore id votes = netScore id votes'.
Proof.
  induction 1 as [|v l l' _ IH|v w l|l l' l'' _ IH1 _ IH2]; cbn; lia.
Qed.

Lemma mentions_Permutation id votes votes' :
  Permutation votes votes' → mentions id votes = mentions id votes'.
Proof.
  unfold mentions.
  induction 1 as [|v l l' _ IH|v w l|l l' l'' _ IH1 _ IH2]; cbn.
  - reflexivity.
  - by rewrite IH.
  - by rewrite !orb_assoc, (orb_comm (Vote.PostId w =? id)).
  - congruence.
Qed.

(** C3: [totalVotes] leaves the map as it is at a vote whose [PostId] is
    not wanted; at a vote for a wanted id it stores the count so far, 0 when
    the id has no entry yet, changed by +1 for an upmod, -1 for a downmod
    and nothing for another vote type. So the result has an entry exactly
    for the wanted ids that occur in the stream, and the entry is the net
    score of the id, also when that is 0. *)
Theorem totalVotes_counts_votes_of_wanted_ids
    (votes : list Vote.t) (wantedIds : gset Z) :
  (∀ st lineObject, Vote.PostId lineObject ∉ wantedIds →
     voteCallback wantedIds st lineObject = st)
  ∧ (∀ st lineObject, Vote.PostId lineObject ∈ wantedIds →
       VoteState.voteTotals (voteCallback wantedIds st lineObject)
       = <[Vote.PostId lineObject :=
             default 0 (VoteState.voteTotals st !! Vote.PostId lineObject)
             + voteDelta lineObject]> (VoteState.voteTotals st))
  ∧ (∀ id, id ∉ wantedIds → totalVotes votes wantedIds !! id = None)
  ∧ (∀ id, id ∈ wantedIds → mentions id votes = true →
       totalVotes votes wantedIds !! id = Some (netScore id votes))
  ∧ (∀ id, mentions id votes = false → totalVotes votes wantedIds !! id = None).
Proof.
  split; [intros; by apply voteCallback_unwanted|].
  split; [intros; by apply voteCallback_count|].
  split; [|split].
  - intros id Hout. rewrite totalVotes_lookup.
    by rewrite (bool_decide_eq_false_2 _ Hout).
  - intros id Hin Hm. rewrite totalVotes_lookup.
    by rewrite (bool_decide_eq_true_2 _ Hin), Hm.
  - intros id Hm. rewrite totalVotes_lookup, Hm. by rewrite andb_false_r.
Qed.

(** C7: [totalVotes] gives the same map (the same keys with the same net
    scores) for any two orders of the same vote records. *)
Theorem totalVotes_order_independent
    (votes votes' : list Vote.t) (wantedIds : gset Z) :
  Permutation votes votes' →
  totalVotes votes wantedIds = totalVotes votes' wantedIds.
Proof.
  intros Hperm. apply map_eq. intros id. rewrite !totalVotes_lookup.
  by rewrite (mentions_Permutation id _ _ Hperm),
    (netScore_Permutation id _ _ Hperm).
Qed.

(** Three votes in two orders. *)
Lemma totalVotes_order_independent_witness :
  totalVotes [Vote.mk 1 2; Vote.mk 1 3; Vote.mk 2 2] {[1; 2]}
  = totalVotes [Vote.mk 2 2; Vote.mk 1 3; Vote.mk 1 2] {[1; 2]}.
Proof.
  apply totalVotes_order_independent.
  etransitivity; [apply perm_swap|].
  etransitivity; [apply perm_skip, perm_swap|].
  apply perm_swap.
Defined.

(** ** Splitting and lower-casing *)

Lemma split_nonempty p s : split p s ≠ [].
Proof.
  destruct s as [|c s]; cbn; [discriminate|].
  destruct (p c); [discriminate|]. destruct (split p s); discriminate.
Qed.

Lemma append_empty s : String.append EmptyString s = s.
Proof. reflexivity. Qed.

Lemma append_String c s1 s2 :
  String.append (String c s1) s2 = String c (String.append s1 s2).
Proof. reflexivity. Qed.

Lemma split_app p s1 c s2 :
  p c = true →
  split p (String.append s1 (String c s2)) = split p s1 ++ split p s2.
Proof.
  intros Hc. induction s1 as [|d s1 IH].
  - rewrite append_empty. cbn. by rewrite Hc.
  - rewrite append_String. cbn. rewrite IH. destruct (p d); [reflexivity|].
    pose proof (split_nonempty p s1) as Hne.
    destruct (split p s1) as [|w ws]; [contradiction | reflexivity].
Qed.

Lemma bordersGap_split p s : bordersGap p s → In EmptyString (split p s).
Proof.
  intros [->|(s1 & c & s2 & -> & Hc & Hgap)]; [by left|].
  rewrite (split_app _ _ _ _ Hc). apply in_or_app.
  destruct Hgap as [->|[->|(c' & s3 & -> & Hc')]].
  - left. by left.
  - right. by left.
  - right. cbn. rewrite Hc'. by left.
Qed.

Lemma split_hd_empty p s ws :
  split p s = EmptyString :: ws →
  s = EmptyString ∨ ∃ c s2, s = String c s2 ∧ p c = true.
Proof.
  destruct s as [|c s]; [by left|]. cbn [split]. intros Hsplit. right.
  destruct (p c) eqn:Hc; [by exists c, s|].
  destruct (split p s); discriminate.
Qed.

Lemma split_tail_empty p s :
  In EmptyString (tail (split p s)) →
  ∃ s1 c s2, s = String.append s1 (String c s2) ∧ p c = true
    ∧ (s2 = EmptyString ∨ ∃ c' s3, s2 = String c' s3 ∧ p c' = true).
Proof.
  induction s as [|c s IH]; [intros []|].
  cbn [split]. destruct (p c) eqn:Hc.
  - cbn [tail]. intros Hin.
    destruct (split p s) as [|w ws] eqn:Hsplit; [destruct Hin|].
    destruct Hin as [->|Hin].
    + exists EmptyString, c, s. split; [reflexivity|]. split; [exact Hc|].
      destruct (split_hd_empty _ _ _ Hsplit) as [->|(c' & s3 & -> & Hc')];
        [by left | right; by exists c', s3].
    + destruct (IH Hin) as (s1 & d & s2 & -> & Hd & Hgap).
      by exists (String c s1), d, s2.
  - intros Hin.
    destruct (split p s) as [|w ws] eqn:Hsplit; [destruct Hin|].
    cbn [tail] in Hin, IH.
    destruct (IH Hin) as (s1 & d & s2 & -> & Hd & Hgap).
    by exists (String c s1), d, s2.
Qed.

(** The converse of [bordersGap_split]: [split] has an empty piece for
    no other string. *)
Lemma split_empty_piece p s : In EmptyString (split p s) → bordersGap p s.
Proof.
  intros Hin. destruct (split p s) as [|w ws] eqn:Hsplit; [destruct Hin|].
  destruct Hin as [->|Hin].
  - destruct (split_hd_empty _ _ _ Hsplit) as [->|(c & s2 & -> & Hc)];
      [by left|].
    right. exists EmptyString, c, s2. split; [reflexivity|].
    split; [exact Hc | by left].
  - assert (Htail : In EmptyString (tail (split p s))) by by rewrite Hsplit.
    destruct (split_tail_empty _ _ Htail) as (s1 & c & s2 & -> & Hc & Hgap).
    right. exists s1, c, s2. split; [reflexivity|]. split; [exact Hc|].
    by right.
Qed.

Lemma toLowerCase_app s1 s2 :
  toLowerCase (String.append s1 s2)
  = String.append (toLowerCase s1) (toLowerCase s2).
Proof.
  induction s1 as [|c s1 IH]; [reflexivity|].
  rewrite append_String. cbn. by rewrite IH.
Qed.

Lemma bordersGap_toLowerCase (p q : ascii → bool) s :
  (∀ c, p c = true → q (lowerChar c) = true) →
  bordersGap p s → bordersGap q (toLowerCase s).
Proof.
  intros Hpq [->|(s1 & c & s2 & -> & Hc & Hgap)]; [by left|].
  right. exists (toLowerCase s1), (lowerChar c), (toLowerCase s2).
  split; [by rewrite toLowerCase_app|]. split; [by apply Hpq|].
  destruct Hgap as [->|[->|(c' & s3 & -> & Hc')]]; [by left | right; by left |].
  right; right. exists (lowerChar c'), (toLowerCase s3). split; [reflexivity | by apply Hpq].
Qed.

Lemma toLowerCase_empty s : toLowerCase s = EmptyString → s = EmptyString.
Proof. by destruct s. Qed.

Lemma toLowerCase_split s1 c s2 : ∀ s,
  toLowerCase s = String.append s1 (String c s2) →
  ∃ t1 d t2, s = String.append t1 (String d t2)
    ∧ toLowerCase t1 = s1 ∧ lowerChar d = c ∧ toLowerCase t2 = s2.
Proof.
  induction s1 as [|a s1 IH]; intros s Hs.
  - destruct s as [|d t2]; [discriminate|]. cbn in Hs. injection Hs as Hd Ht.
    by exists EmptyString, d, t2.
  - destruct s as [|b s]; [discriminate|].
    rewrite append_String in Hs. cbn in Hs. injection Hs as Hb Hs.
    destruct (IH s Hs) as (t1 & d & t2 & -> & Ht1 & Hd & Ht2).
    exists (String b t1), d, t2. rewrite append_String. cbn.
    by rewrite Hb, Ht1.
Qed.

(** The converse of [bordersGap_toLowerCase] for the separators of
    words. *)
Lemma bordersGap_lowered s :
  bordersGap isSeparator (toLowerCase s) → bordersGap separatesWords s.
Proof.
  intros [Hs|(s1 & c & s2 & Hs & Hc & Hgap)];
    [left; by apply toLowerCase_empty|].
  destruct (toLowerCase_split _ _ _ _ Hs) as (t1 & d & t2 & -> & Ht1 & Hd & Ht2).
  right. exists t1, d, t2. split; [reflexivity|].
  split; [unfold separatesWords; by rewrite Hd|].
  destruct Hgap as [->|[->|(c' & s3 & -> & Hc')]].
  - left. by apply toLowerCase_empty.
  - right; left. by apply toLowerCase_empty.
  - right; right. destruct t2 as [|d' t3]; [discriminate|].
    cbn in Ht2. injection Ht2 as Hd' _. exists d', t3.
    split; [reflexivity|]. unfold separatesWords. by rewrite Hd'.
Qed.

Lemma isSpace_lowerChar c : isSpace c = true → isSpace (lowerChar c) = true.
Proof.
  unfold isSpace. intros Hc. apply N.eqb_eq in Hc.
  assert (c = ascii_of_N 32) as -> by (rewrite <- Hc; symmetry; apply ascii_N_embedding).
  reflexivity.
Qed.

(** ** The stemmed word matcher *)

Lemma mapM_exc_In {A B : Type} (f : A → exc B) (l : list A) : ∀ (k : list B) x y,
  mapM f l = Ok k → In x l → f x = Ok y → In y k.
Proof.
  induction l as [|a l IH]; intros k x y Hmap Hin Hfx; [destruct Hin|].
  cbn in Hmap. destruct (f a) as [b|] eqn:Hfa; [|discriminate].
  cbn in Hmap. destruct (mapM f l) as [k'|] eqn:Hk'; [|discriminate].
  cbn in Hmap. injection Hmap as <-.
  destruct Hin as [->|Hin].
  - left. congruence.
  - right. by apply (IH k' x y).
Qed.

Lemma mapM_exc_each {A B : Type} (f : A → exc B) (l : list A) : ∀ (k : list B) x,
  mapM f l = Ok k → In x l → ∃ y, f x = Ok y.
Proof.
  induction l as [|a l IH]; intros k x Hmap Hin; [destruct Hin|].
  cbn in Hmap. destruct (f a) as [b|] eqn:Hfa; [|discriminate].
  cbn in Hmap. destruct (mapM f l) as [k'|] eqn:Hk'; [|discriminate].
  destruct Hin as [->|Hin]; [by exists b | by apply (IH k' x)].
Qed.

Lemma has_In wordSet word : In word wordSet → has wordSet word = true.
Proof.
  intros Hin. unfold has. apply existsb_exists. exists word.
  split; [exact Hin | apply String.eqb_refl].
Qed.

Section MatcherFacts.
Context `{TextLibs}.

(** The [catch]: whatever is thrown inside the [try], the matcher
    returns [true], for an accept matcher and for an exclude matcher. *)
Lemma matcher_true_on_throw testWords isAccept lineObject message :
  tryMatch testWords isAccept lineObject = Throw message →
  matcher testWords isAccept lineObject = true.
Proof. intros Hthrow. unfold matcher. by rewrite Hthrow. Qed.

Lemma makeDoesMatch_nonempty testString isAccept m :
  testString ≠ "" →
  makeDoesMatch testString isAccept = Ok m →
  ∃ testWords, testWordsOf testString = Ok testWords
               ∧ m = matcher testWords isAccept.
Proof.
  intros Hne Hm. unfold makeDoesMatch in Hm.
  destruct (String.eqb_spec testString "") as [?|_]; [contradiction|].
  destruct (testWordsOf testString) as [testWords|] eqn:Hw; [|discriminate].
  cbn in Hm. injection Hm as <-. by exists testWords.
Qed.

(** A query with a leading, trailing or doubled space has the empty
    string among its words. *)
Lemma testWordsOf_empty_word testString testWords :
  stemmer "" = Ok "" →
  bordersGap isSpace testString →
  testWordsOf testString = Ok testWords →
  In "" testWords.
Proof.
  intros Hstem Hgap Hw. unfold testWordsOf in Hw.
  apply (mapM_exc_In _ _ _ "" "" Hw); [|exact Hstem].
  apply bordersGap_split.
  apply (bordersGap_toLowerCase isSpace); [apply isSpace_lowerChar | exact Hgap].
Qed.

Lemma stemmedWords_pieces text wordSet piece word :
  stemmedWords (JStr text) = Ok wordSet →
  In piece (split isSeparator (toLowerCase text)) →
  stemmer piece = Ok word →
  In word wordSet.
Proof.
  intros Hws Hin Hstem. cbn in Hws.
  destruct (mapM stemmer (split isSeparator (toLowerCase text)))
    as [wordArray|] eqn:Harr; [|discriminate].
  cbn in Hws.
  destruct (mapM _ wordArray) as [subWords|]; [|discriminate].
  cbn in Hws. injection Hws as <-.
  apply in_or_app. left. by apply (mapM_exc_In _ _ _ piece word Harr).
Qed.

(** The stems of the parts of a stem with a hyphen are in the word set. *)
Lemma stemmedWords_parts text wordSet piece stem part word :
  stemmedWords (JStr text) = Ok wordSet →
  In piece (split isSeparator (toLowerCase text)) →
  stemmer piece = Ok stem →
  includesHyphen stem = true →
  In part (split isHyphen stem) →
  stemmer part = Ok word →
  In word wordSet.
Proof.
  intros Hws Hin Hstem Hhyphen Hpart Hword. cbn in Hws.
  destruct (mapM stemmer (split isSeparator (toLowerCase text)))
    as [wordArray|] eqn:Harr; [|discriminate].
  cbn in Hws.
  match type of Hws with
  | (mbind _ (mapM ?f wordArray) = _) =>
      destruct (mapM f wordArray) as [subWords|] eqn:Hsub; [|discriminate];
      pose proof (mapM_exc_In _ _ _ piece stem Harr Hin Hstem) as Hinarr;
      destruct (mapM_exc_each f _ _ stem Hsub Hinarr) as [parts Hparts];
      pose proof (mapM_exc_In f _ _ stem parts Hsub Hinarr Hparts) as Hinsub
  end.
  cbn in Hws. injection Hws as <-.
  apply in_or_app. right. apply in_concat. exists parts.
  split; [exact Hinsub|]. cbn beta in Hparts. rewrite Hhyphen in Hparts.
  by apply (mapM_exc_In _ _ _ part word Hparts).
Qed.

(** A text that is empty, or begins or ends with a separator, or has two
    separators in a row, has the empty string in its word set. *)
Lemma stemmedWords_empty_word text wordSet :
  stemmer "" = Ok "" →
  bordersGap separatesWords text →
  stemmedWords (JStr text) = Ok wordSet →
  In "" wordSet.
Proof.
  intros Hstem Hgap Hws.
  apply (stemmedWords_pieces text wordSet "" "" Hws); [|exact Hstem].
  apply bordersGap_split.
  by apply (bordersGap_toLowerCase separatesWords).
Qed.

(** What a [try] block that does not throw has computed. *)
Lemma tryMatch_Ok testWords isAccept lineObject aHit :
  tryMatch testWords isAccept lineObject = Ok aHit →
  ∃ title titleWords tagWords bodyWords,
    (if negb isAccept
        && negb (truthy (js_or (Post.Title lineObject) (JStr "")))
        && truthy (js_or (Post.Body lineObject) (JStr ""))
     then bodyAsTitle (js_or (Post.Body lineObject) (JStr ""))
     else Ok (js_or (Post.Title lineObject) (JStr ""))) = Ok title
    ∧ plainWords title = Ok titleWords
    ∧ (if truthy (Post.Tags lineObject)
       then Some <$> stemmedWords (Post.Tags lineObject)
       else Ok None) = Ok tagWords
    ∧ (if isAccept then Ok None
       else plainWords (js_or (Post.Body lineObject) (JStr ""))) = Ok bodyWords
    ∧ aHit = existsb (fun word =>
               andHas titleWords word || andHas tagWords word
               || andHas bodyWords word) testWords.
Proof.
  unfold tryMatch. intros Hok.
  match type of Hok with
  | (mbind _ ?e = _) => destruct e as [title|] eqn:Htitle; [|discriminate]
  end.
  cbn in Hok.
  destruct (plainWords title) as [titleWords|] eqn:Htw; [|discriminate].
  cbn in Hok.
  match type of Hok with
  | (mbind _ ?e = _) => destruct e as [tagWords|] eqn:Htags; [|discriminate]
  end.
  cbn in Hok.
  match type of Hok with
  | (mbind _ ?e = _) => destruct e as [bodyWords|] eqn:Hbody; [|discriminate]
  end.
  cbn in Hok. injection Hok as <-.
  exists title, titleWords, tagWords, bodyWords. repeat split; assumption.
Qed.

Lemma existsb_hit (f : string → bool) testWords word :
  In word testWords → f word = true → existsb f testWords = true.
Proof. intros Hin Hf. apply existsb_exists. by exists word. Qed.

End MatcherFacts.

(** C10, as the code has it: when the query is not empty and has a
    leading, trailing or doubled space, and the stemmer returns the empty
    word for the empty word, the query word list contains the empty string;
    the word set of a text contains the empty string when the text is
    empty or, once lower-cased, begins or ends with a code unit outside
    [[a-z0-9-]] or has two of them in a row; so the matcher returns [true]
    for every document whose [Tags] is a non-empty string of that form, or
    whose [Title] is truthy and has a plain text of that form. These are
    exactly the texts that the split at the code units outside
    [[a-z0-9-]] cuts into pieces one of which is empty. They are not the
    only texts with the empty string in their word set: a piece whose
    stem has a hyphen and begins or ends with a hyphen, or has two hyphens
    in a row, puts it there as well, by the split of that stem at its
    hyphens. *)
Theorem empty_query_word_matches_texts_with_empty_pieces `{TextLibs}
    (testString : string) (isAccept : bool) (m : Post.t → bool)
    (lineObject : Post.t) :
  stemmer "" = Ok "" →
  testString ≠ "" →
  bordersGap isSpace testString →
  makeDoesMatch testString isAccept = Ok m →
  (∃ tags, Post.Tags lineObject = JStr tags ∧ tags ≠ ""
           ∧ bordersGap separatesWords tags)
  ∨ (truthy (Post.Title lineObject) = true
     ∧ ∀ plain, html2plaintext (Post.Title lineObject) = Ok plain →
                bordersGap separatesWords plain) →
  (∃ testWords, testWordsOf testString = Ok testWords ∧ In "" testWords)
  ∧ (∀ text wordSet, bordersGap separatesWords text →
       stemmedWords (JStr text) = Ok wordSet → In "" wordSet)
  ∧ m lineObject = true
  ∧ (∀ text, In "" (split isSeparator (toLowerCase text))
             ↔ bordersGap separatesWords text)
  ∧ (∀ text wordSet piece stem,
       stemmedWords (JStr text) = Ok wordSet →
       In piece (split isSeparator (toLowerCase text)) →
       stemmer piece = Ok stem →
       includesHyphen stem = true →
       bordersGap isHyphen stem →
       In "" wordSet).
Proof.
  intros Hstem Hne Hquery Hm Hdoc.
  destruct (makeDoesMatch_nonempty _ _ _ Hne Hm) as (testWords & Hw & ->).
  pose proof (testWordsOf_empty_word _ _ Hstem Hquery Hw) as Hempty.
  split; [by exists testWords|].
  split; [intros text wordSet Hgap Hws; by apply (stemmedWords_empty_word text)|].
  apply and_comm. split.
  { split.
    - intros text. split.
      + intros Hin. by apply bordersGap_lowered, split_empty_piece.
      + intros Hgap. apply bordersGap_split.
        by apply (bordersGap_toLowerCase separatesWords).
    - intros text wordSet piece stem Hws Hin Hpiece Hhyphen Hgap.
      apply (stemmedWords_parts text wordSet piece stem "" "" Hws Hin Hpiece
               Hhyphen); [by apply bordersGap_split | exact Hstem]. }
  unfold matcher.
  destruct (tryMatch testWords isAccept lineObject) as [aHit|] eqn:Htry;
    [|reflexivity].
  apply tryMatch_Ok in Htry
    as (title & titleWords & tagWords & bodyWords
        & Htitle & Htw & Htags & _ & ->).
  apply (existsb_hit _ _ "" Hempty).
  destruct Hdoc as [(tags & Etags & Htne & Hgap)|(Htruthy & Hplain)].
  - rewrite Etags in Htags.
    assert (Ht : truthy (JStr tags) = true).
    { cbn. by destruct (String.eqb_spec tags ""). }
    rewrite Ht in Htags.
    destruct (stemmedWords (JStr tags)) as [wordSet|] eqn:Hws; [|discriminate].
    cbn in Htags. injection Htags as <-.
    cbn [andHas]. rewrite (has_In wordSet "").
    + by rewrite orb_true_r.
    + by apply (stemmedWords_empty_word tags).
  - assert (Etitle : js_or (Post.Title lineObject) (JStr "") = Post.Title lineObject).
    { unfold js_or. by rewrite Htruthy. }
    rewrite Etitle, Htruthy in Htitle. cbn [negb] in Htitle.
    rewrite andb_false_r in Htitle. cbn [andb] in Htitle.
    injection Htitle as <-.
    unfold plainWords in Htw. rewrite Htruthy in Htw.
    destruct (html2plaintext (Post.Title lineObject)) as [plain|] eqn:Hp;
      [|discriminate].
    cbn -[stemmedWords] in Htw.
    destruct (stemmedWords (JStr plain)) as [wordSet|] eqn:Hws; [|discriminate].
    cbn in Htw. injection Htw as <-.
    cbn [andHas]. rewrite (has_In wordSet ""); [reflexivity|].
    apply (stemmedWords_empty_word plain); [exact Hstem | by apply Hplain | exact Hws].
Qed.

(** The query [x  y] (two spaces) and the tags [<a>], for both kinds of
    matcher. *)
Lemma empty_query_word_matches_texts_with_empty_pieces_witness :
  ((∃ testWords, @testWordsOf plainLibs "x  y" = Ok testWords ∧ In "" testWords)
   ∧ (∀ text wordSet, bordersGap separatesWords text →
        @stemmedWords plainLibs (JStr text) = Ok wordSet → In "" wordSet)
   ∧ @matcher plainLibs ["x"; ""; "y"] false taggedAngle = true)
  ∧ @matcher plainLibs ["x"; ""; "y"] true taggedAngle = true.
Proof.
  assert (Hquery : bordersGap isSpace "x  y").
  { right. exists "x", " "%char, " y". split; [reflexivity|].
    split; [reflexivity|]. right; right. by exists " "%char, "y". }
  assert (Hdoc : ∃ tags, Post.Tags taggedAngle = JStr tags ∧ tags ≠ ""
                         ∧ bordersGap separatesWords tags).
  { exists "<a>". split; [reflexivity|]. split; [discriminate|].
    right. exists "", "<"%char, "a>". split; [reflexivity|].
    split; [reflexivity | by left]. }
  split.
  - destruct (@empty_query_word_matches_texts_with_empty_pieces plainLibs
                "x  y" false (@matcher plainLibs ["x"; ""; "y"] false) taggedAngle)
      as (Hwords & Hset & Hmatch & _);
      [reflexivity | discriminate | exact Hquery | reflexivity | by left |].
    exact (conj Hwords (conj Hset Hmatch)).
  - destruct (@empty_query_word_matches_texts_with_empty_pieces plainLibs
                "x  y" true (@matcher plainLibs ["x"; ""; "y"] true) taggedAngle)
      as (_ & _ & Hmatch & _);
      [reflexivity | discriminate | exact Hquery | reflexivity | by left |].
    exact Hmatch.
Defined.

(** With any stemmer that returns the words shorter than three characters
    as they are, the query [x  y] does not match the tags [a b]. *)
Lemma short_word_stemmers_miss_spaced_tags `{TextLibs}
    (isAccept : bool) (m : Post.t → bool) :
  (∀ word, (String.length word < 3)%nat → stemmer word = Ok word) →
  makeDoesMatch "x  y" isAccept = Ok m →
  m taggedAB = false.
Proof.
  intros Hshort Hm.
  assert (Equery : split isSpace (toLowerCase "x  y") = ["x"; ""; "y"])
    by reflexivity.
  assert (Etags : split isSeparator (toLowerCase "a b") = ["a"; "b"])
    by reflexivity.
  unfold makeDoesMatch, testWordsOf in Hm. rewrite Equery in Hm. cbn in Hm.
  rewrite !Hshort in Hm by (cbn; lia). cbn in Hm. injection Hm as <-.
  unfold matcher, tryMatch, plainWords, taggedAB, post.
  destruct isAccept; cbn -[split toLowerCase]; rewrite Etags; cbn;
    rewrite !Hshort by (cbn; lia); reflexivity.
Qed.

(** C10 fails as the design document words it: the tags [a b] contain a
    character outside [[a-z0-9-]] (the space) and the query [x  y] has the
    empty string among its words, yet the word set of the tags is [a], [b], without the empty
    string, and neither the accept matcher nor the exclude matcher made
    for the query matches the document. *)
Lemma double_space_query_misses_spaced_tags :
  containsSeparator "a b" = true
  ∧ @testWordsOf plainLibs "x  y" = Ok ["x"; ""; "y"]
  ∧ @stemmedWords plainLibs (JStr "a b") = Ok ["a"; "b"]
  ∧ (∃ m, @makeDoesMatch plainLibs "x  y" true = Ok m ∧ m taggedAB = false)
  ∧ (∃ m, @makeDoesMatch plainLibs "x  y" false = Ok m ∧ m taggedAB = false).
Proof.
  split; [reflexivity|]. split; [reflexivity|]. split; [reflexivity|].
  split; eexists; (split; [reflexivity | reflexivity]).
Qed.

(** The tags [a-] and [a - b] have no empty piece, yet the empty string
    is in their word sets, by the split of the stems [a-] and [-] at the
    hyphen, and the query [x  y] matches both documents. *)
Example double_space_query_matches_hyphen_tags :
  @stemmedWords plainLibs (JStr "a-") = Ok ["a-"; "a"; ""]
  ∧ @stemmedWords plainLibs (JStr "a - b") = Ok ["a"; "-"; "b"; ""; ""]
  ∧ split isSeparator (toLowerCase "a-") = ["a-"]
  ∧ split isSeparator (toLowerCase "a - b") = ["a"; "-"; "b"]
  ∧ (∃ m, @makeDoesMatch plainLibs "x  y" true = Ok m
          ∧ m taggedHyphen = true ∧ m taggedDash = true)
  ∧ (∃ m, @makeDoesMatch plainLibs "x  y" false = Ok m
          ∧ m taggedHyphen = true ∧ m taggedDash = true).
Proof.
  split; [reflexivity|]. split; [reflexivity|]. split; [reflexivity|].
  split; [reflexivity|].
  split; eexists; (split; [reflexivity | by split]).
Qed.

(** C5: the code at a question whose [Tags] is the number 42, with any
    query words and any text packages: the [try] block throws (a number has
    no [toLowerCase]); the exclude matcher returns [true], so the post pass
    deletes the question, seeded as id 1, from [postIds] and
    [extendedQuestionIds]; the accept matcher returns [true] as well. *)
Theorem exclude_matcher_rejects_document_when_processing_throws `{TextLibs}
    (testWords : list string) :
  tryMatch testWords false taggedNumber
    = Throw "text.toLowerCase is not a function"
  ∧ matcher testWords false taggedNumber = true
  ∧ postIds (postPass (matcher testWords false) (initialResolver [1]) [taggedNumber])
    = ∅
  ∧ extendedQuestionIds
      (postPass (matcher testWords false) (initialResolver [1]) [taggedNumber])
    = ∅
  ∧ matcher testWords true taggedNumber = true.
Proof.
  assert (Hthrow : tryMatch testWords false taggedNumber
                   = Throw "text.toLowerCase is not a function") by reflexivity.
  assert (Hrej : rejectedAt (matcher testWords false) (initialResolver [1]) taggedNumber).
  { split; [reflexivity|]. split; [|by apply (matcher_true_on_throw _ _ _ _ Hthrow)].
    cbn. set_solver. }
  split; [exact Hthrow|].
  split; [by apply (matcher_true_on_throw _ _ _ _ Hthrow)|].
  unfold postPass, readFile. cbn [fold_left].
  rewrite (postCallback_rejected _ _ _ Hrej). cbn.
  split; [set_solver|]. split; [set_solver | reflexivity].
Qed.

(** ** The answer extender *)

Lemma pendingPromises_step linesRead :
  0 ≤ linesRead →
  pendingPromises (linesRead + 1)
  = if (linesRead + 1) mod 20 =? 0 then 1%nat
    else S (pendingPromises linesRead).
Proof.
  intros Hpos. unfold pendingPromises.
  destruct (Z.eqb_spec ((linesRead + 1) mod 20) 0) as [Hz|Hnz];
    destruct (Z.ltb_spec (linesRead + 1) 20) as [Hlt|Hge];
    destruct (Z.ltb_spec linesRead 20) as [Hlt'|Hge'];
    rewrite <- ?Z2Nat.inj_succ; try (f_equal; Z.div_mod_to_equations; lia);
    try (Z.div_mod_to_equations; lia).
Qed.

(** The loop, whatever its [extendId]s settle with: as many lines read as
    outcomes, the fulfilled counts added up, and a batch of the promises
    made since it was last emptied. *)
Lemma settledLoop_fold outcomes : ∀ linesRead totalHits,
  0 ≤ linesRead →
  fold_left settleStep outcomes
    (linesRead, totalHits, repeat JUndefined (pendingPromises linesRead))
  = (linesRead + Z.of_nat (length outcomes),
     totalHits + sumZ (fulfilled outcomes),
     repeat JUndefined
       (pendingPromises (linesRead + Z.of_nat (length outcomes)))).
Proof.
  induction outcomes as [|outcome outcomes IH]; intros linesRead totalHits Hpos.
  - cbn. by rewrite !Z.add_0_r.
  - cbn [fold_left settleStep].
    assert (Ebatch : (if (linesRead + 1) mod 20 =? 0 then []
                      else repeat JUndefined (pendingPromises linesRead))
                     ++ [JUndefined]
                     = repeat JUndefined (pendingPromises (linesRead + 1))).
    { rewrite (pendingPromises_step _ Hpos).
      destruct ((linesRead + 1) mod 20 =? 0); [reflexivity|].
      cbn [repeat]. by rewrite repeat_cons. }
    rewrite Ebatch, IH by lia. cbn [length fulfilled map sumZ fold_right].
    replace (linesRead + 1 + Z.of_nat (length outcomes))
      with (linesRead + Z.of_nat (S (length outcomes))) by lia.
    f_equal. f_equal. unfold sumZ, fulfilled. destruct outcome; lia.
Qed.

Section ExtenderFacts.
Context `{ElasticClient}.

(** The loop on an index is the loop on the outcomes of its
    [extendId]s. *)
Lemma extendFold_settled ids : ∀ st,
  let st' := fold_left extendStep ids st in
  (ExtendState.linesRead st', ExtendState.totalHits st',
   ExtendState.promiseBatch st')
  = fold_left settleStep
      (extendOutcomes ids (ExtendState.sink st) (ExtendState.log st))
      (ExtendState.linesRead st, ExtendState.totalHits st,
       ExtendState.promiseBatch st).
Proof.
  induction ids as [|questionId ids IH]; intros st; cbn zeta; [reflexivity|].
  cbn [fold_left extendOutcomes]. rewrite (IH (extendStep st questionId)).
  unfold extendStep.
  destruct (extendId (ExtendState.sink st) (ExtendState.log st) questionId)
    as [[sink' log'] outcome].
  reflexivity.
Qed.

Lemma extendStep_fields st questionId :
  ExtendState.linesRead (extendStep st questionId) = ExtendState.linesRead st + 1
  ∧ ExtendState.promiseBatch (extendStep st questionId)
    = (if (ExtendState.linesRead st + 1) mod 20 =? 0 then []
       else ExtendState.promiseBatch st) ++ [JUndefined]
  ∧ ExtendState.totalHits (extendStep st questionId)
    = ExtendState.totalHits st
      + sumZ (extendedCounts [questionId] (ExtendState.sink st) (ExtendState.log st))
  ∧ (ExtendState.sink (extendStep st questionId),
     ExtendState.log (extendStep st questionId))
    = fst (extendId (ExtendState.sink st) (ExtendState.log st) questionId).
Proof.
  unfold extendStep. cbn [extendedCounts].
  destruct (extendId (ExtendState.sink st) (ExtendState.log st) questionId)
    as [[sink' log'] [results|message]]; cbn; repeat split; lia.
Qed.

Lemma extendStep_settled st questionId :
  batchSettled st → batchSettled (extendStep st questionId).
Proof.
  intros [Hpos Hbatch]. unfold batchSettled.
  destruct (extendStep_fields st questionId) as (-> & -> & _).
  split; [lia|]. rewrite (pendingPromises_step _ Hpos), Hbatch.
  destruct ((ExtendState.linesRead st + 1) mod 20 =? 0); [reflexivity|].
  cbn [repeat]. by rewrite repeat_cons.
Qed.

Lemma extendedCounts_cons questionId ids sink log :
  sumZ (extendedCounts (questionId :: ids) sink log)
  = sumZ (extendedCounts [questionId] sink log)
    + sumZ (extendedCounts ids
              (fst (fst (extendId sink log questionId)))
              (snd (fst (extendId sink log questionId)))).
Proof.
  cbn [extendedCounts].
  destruct (extendId sink log questionId) as [[sink' log'] outcome].
  unfold sumZ. cbn. lia.
Qed.

Lemma extendFold ids : ∀ st,
  batchSettled st →
  let st' := fold_left extendStep ids st in
  batchSettled st'
  ∧ ExtendState.linesRead st' = ExtendState.linesRead st + Z.of_nat (length ids)
  ∧ ExtendState.totalHits st'
    = ExtendState.totalHits st
      + sumZ (extendedCounts ids (ExtendState.sink st) (ExtendState.log st)).
Proof.
  induction ids as [|questionId ids IH]; intros st Hst; cbn zeta.
  - cbn. repeat split; try lia; apply Hst.
  - cbn [fold_left].
    destruct (IH (extendStep st questionId) (extendStep_settled _ _ Hst))
      as (Hsettled & Hlines & Hhits).
    destruct (extendStep_fields st questionId) as (El & _ & Eh & Es).
    split; [exact Hsettled|]. split.
    + rewrite Hlines, El. cbn [length]. lia.
    + rewrite Hhits, Eh, (extendedCounts_cons questionId ids).
      rewrite <- Es. cbn [fst snd]. lia.
Qed.

(** What [extendId] fulfils with: the number of hits of the search when
    the question is found in the index and is a question, 0 otherwise. *)
Lemma extendId_count sink log questionId sink' log' localHits :
  extendId sink log questionId = (sink', log', Ok localHits) →
  localHits = 0
  ∨ ∃ hits question,
      search sink questionId = Ok hits
      ∧ getDocument sink questionId = Ok (Some question)
      ∧ Post.PostTypeId question = POSTTYPEID_QUESTION
      ∧ localHits = Z.of_nat (length hits).
Proof.
  unfold extendId. intros Hext.
  destruct (search sink questionId) as [hits|] eqn:Hs; [|discriminate].
  destruct (negb (length hits =? 0)%nat); [|left; congruence].
  destruct (getDocument sink questionId) as [[question|]|] eqn:Hg;
    [|left; congruence|discriminate].
  destruct (Z.eqb_spec (Post.PostTypeId question) POSTTYPEID_QUESTION)
    as [Hq|_]; [|left; congruence].
  right. exists hits, question. repeat split; try assumption.
  assert (Hcount : ∀ l acc,
            snd (fold_left (extendHit question) l acc)
            = snd acc + Z.of_nat (length l)).
  { induction l as [|hit l IHl]; intros [[s g] n]; cbn [fold_left length].
    - cbn. lia.
    - rewrite IHl. unfold extendHit.
      destruct (promisePutDocument s (extendedAnswer question hit))
        as [s' [r|e]]; cbn [snd]; lia. }
  specialize (Hcount hits (sink, log, 0)).
  destruct (fold_left (extendHit question) hits (sink, log, 0))
    as [[s g] n]. cbn in Hcount. injection Hext as _ _ <-. lia.
Qed.

(** The [forEach] over the hits: a put is tried for every hit, each hit is
    counted, and each failed put adds its line to the log. *)
Lemma extendHit_run question hits : ∀ sink log localHits,
  fold_left (extendHit question) hits (sink, log, localHits)
  = (promisePutAll sink (extendedAnswer question <$> hits),
     log ++ ignoredPuts sink (extendedAnswer question <$> hits),
     localHits + Z.of_nat (length hits)).
Proof.
  induction hits as [|hit hits IH]; intros sink log localHits.
  - cbn. rewrite app_nil_r. do 2 f_equal. lia.
  - cbn [fold_left]. unfold extendHit at 2.
    rewrite fmap_cons. cbn [ignoredPuts]. unfold promisePutAll. cbn [fold_left].
    destruct (promisePutDocument sink (extendedAnswer question hit))
      as [sink' [result|e]]; rewrite IH; cbn [fst length].
    + unfold promisePutAll. f_equal. lia.
    + unfold promisePutAll. rewrite <- app_assoc. cbn [app]. f_equal. lia.
Qed.

(** [extendId] as a whole: the index and the log it leaves are those of
    the puts tried on [answersToExtend]; it rejects with the failure of
    the search, or of [getDocument] when there is a hit, and fulfils with
    the number of documents it tried to put otherwise. *)
Lemma extendId_run sink log questionId :
  extendId sink log questionId
  = (promisePutAll sink (answersToExtend sink questionId),
     log ++ ignoredPuts sink (answersToExtend sink questionId),
     match search sink questionId with
     | Throw e => Throw e
     | Ok [] => Ok 0
     | Ok (_ :: _) =>
         match getDocument sink questionId with
         | Throw e => Throw e
         | Ok _ => Ok (Z.of_nat (length (answersToExtend sink questionId)))
         end
     end).
Proof.
  unfold extendId, answersToExtend.
  destruct (search sink questionId) as [[|hit hits]|e];
    [| |by rewrite app_nil_r].
  - cbn [length Nat.eqb negb].
    destruct (getDocument sink questionId) as [[question|]|];
      [|by rewrite app_nil_r..].
    destruct (Post.PostTypeId question =? POSTTYPEID_QUESTION);
      by rewrite app_nil_r.
  - cbn [length Nat.eqb negb].
    destruct (getDocument sink questionId) as [[question|]|e];
      [|by rewrite app_nil_r..].
    destruct (Post.PostTypeId question =? POSTTYPEID_QUESTION);
      [|by rewrite app_nil_r].
    rewrite extendHit_run, length_fmap. reflexivity.
Qed.

(** One turn of the loop adds the number of attempted puts to
    [totalHits], whether [extendId] fulfils or rejects. *)
Lemma extendStep_puts st questionId :
  ExtendState.totalHits (extendStep st questionId)
  = ExtendState.totalHits st
    + Z.of_nat (length (answersToExtend (ExtendState.sink st) questionId))
  ∧ ExtendState.sink (extendStep st questionId)
    = promisePutAll (ExtendState.sink st)
        (answersToExtend (ExtendState.sink st) questionId)
  ∧ ExtendState.log (extendStep st questionId)
    = ExtendState.log st
      ++ ignoredPuts (ExtendState.sink st)
           (answersToExtend (ExtendState.sink st) questionId).
Proof.
  unfold extendStep. rewrite extendId_run. cbn.
  split; [|by split].
  unfold answersToExtend.
  destruct (search (ExtendState.sink st) questionId) as [[|hit hits]|e];
    [| |cbn; lia];
    (destruct (getDocument (ExtendState.sink st) questionId) as [[question|]|];
     [|cbn; lia..]);
    destruct (Post.PostTypeId question =? POSTTYPEID_QUESTION); cbn; lia.
Qed.

Lemma promisePutAll_app sink documents documents' :
  promisePutAll sink (documents ++ documents')
  = promisePutAll (promisePutAll sink documents) documents'.
Proof. apply fold_left_app. Qed.

Lemma extendFold_puts ids : ∀ st,
  let st' := fold_left extendStep ids st in
  ExtendState.totalHits st'
  = ExtendState.totalHits st
    + Z.of_nat (length (putAttempts ids (ExtendState.sink st)))
  ∧ ExtendState.sink st'
    = promisePutAll (ExtendState.sink st) (putAttempts ids (ExtendState.sink st)).
Proof.
  induction ids as [|questionId ids IH]; intros st; cbn zeta.
  - cbn. split; [lia | reflexivity].
  - cbn [fold_left putAttempts].
    destruct (IH (extendStep st questionId)) as [Ehits Esink].
    destruct (extendStep_puts st questionId) as (Eh & Es & _).
    rewrite Ehits, Esink, Eh, Es, promisePutAll_app, length_app.
    split; [lia | reflexivity].
Qed.

Lemma promisePutAll_refused (documents : list Post.t) : ∀ sink,
  (∀ sink' document, fst (promisePutDocument sink' document) = sink') →
  promisePutAll sink documents = sink.
Proof.
  intros sink Hput. unfold promisePutAll.
  induction documents as [|document documents IH]; [reflexivity|].
  cbn [fold_left]. by rewrite Hput.
Qed.

Lemma putAttempts_refused ids sink :
  (∀ sink' document, fst (promisePutDocument sink' document) = sink') →
  putAttempts ids sink = concat (answersToExtend sink <$> ids).
Proof.
  intros Hput. induction ids as [|questionId ids IH]; [reflexivity|].
  cbn [putAttempts]. rewrite (promisePutAll_refused _ _ Hput), IH.
  reflexivity.
Qed.

End ExtenderFacts.

(** C4, as the code has it: [extendAnswersFromQuestions] adds up in its
    local [totalHits] the counts [extendId] fulfils with, but what it
    returns is the result of [Promise.all] on the last batch of promises:
    an array holding [undefined] once for every question id processed
    since the batch was last emptied, never a number; this holds whatever
    the [extendId]s settle with, the total being the sum of the counts of
    those that fulfil. With each [extendId] run to its end before the
    next one starts, the total is the number of answer documents whose
    put was attempted in the run: for each question id, the hits of the
    search with the fields of the question copied on them when the
    question is found and is a Question, none otherwise; a hit counts
    whether its put succeeds or fails, so with puts that are all refused
    the index is left as it was and the total is still the number of
    those hits. *)
Theorem extendAnswersFromQuestions_returns_last_batch `{ElasticClient}
    (postIdsArray : list Z) (sink : Sink) :
  extendAnswersFromQuestions postIdsArray sink
    = JArray (repeat JUndefined
                (pendingPromises (Z.of_nat (length (setOrder postIdsArray)))))
  ∧ ExtendState.totalHits (extendLoop postIdsArray sink)
    = sumZ (extendedCounts (setOrder postIdsArray) sink [])
  ∧ (∀ total, extendAnswersFromQuestions postIdsArray sink ≠ JNum total)
  ∧ ExtendState.totalHits (extendLoop postIdsArray sink)
    = Z.of_nat (length (putAttempts (setOrder postIdsArray) sink))
  ∧ ExtendState.sink (extendLoop postIdsArray sink)
    = promisePutAll sink (putAttempts (setOrder postIdsArray) sink)
  ∧ (∀ st questionId,
       ExtendState.totalHits (extendStep st questionId)
       = ExtendState.totalHits st
         + Z.of_nat (length (answersToExtend (ExtendState.sink st) questionId))
       ∧ ExtendState.sink (extendStep st questionId)
         = promisePutAll (ExtendState.sink st)
             (answersToExtend (ExtendState.sink st) questionId))
  ∧ (∀ index questionId hits question,
       search index questionId = Ok hits →
       getDocument index questionId = Ok (Some question) →
       Post.PostTypeId question = POSTTYPEID_QUESTION →
       answersToExtend index questionId = extendedAnswer question <$> hits
       ∧ ∀ log, snd (extendId index log questionId) = Ok (Z.of_nat (length hits)))
  ∧ (∀ index questionId,
       (∃ e, search index questionId = Throw e)
       ∨ search index questionId = Ok []
       ∨ (∃ e, getDocument index questionId = Throw e)
       ∨ getDocument index questionId = Ok None
       ∨ (∃ question, getDocument index questionId = Ok (Some question)
                      ∧ Post.PostTypeId question ≠ POSTTYPEID_QUESTION) →
       answersToExtend index questionId = [])
  ∧ (∀ outcomes,
       settledLoop outcomes
       = (Z.of_nat (length outcomes), sumZ (fulfilled outcomes),
          repeat JUndefined (pendingPromises (Z.of_nat (length outcomes)))))
  ∧ (ExtendState.linesRead (extendLoop postIdsArray sink),
     ExtendState.totalHits (extendLoop postIdsArray sink),
     ExtendState.promiseBatch (extendLoop postIdsArray sink))
    = settledLoop (extendOutcomes (setOrder postIdsArray) sink [])
  ∧ ((∀ index document, fst (promisePutDocument index document) = index) →
     ExtendState.sink (extendLoop postIdsArray sink) = sink
     ∧ ExtendState.totalHits (extendLoop postIdsArray sink)
       = Z.of_nat (length (concat (answersToExtend sink <$> setOrder postIdsArray)))).
Proof.
  unfold extendAnswersFromQuestions, extendLoop.
  set (st0 := {| ExtendState.sink := sink; ExtendState.log := [];
                 ExtendState.linesRead := 0; ExtendState.totalHits := 0;
                 ExtendState.promiseBatch := [] |}).
  assert (H0 : batchSettled st0) by (split; [cbn; lia | reflexivity]).
  destruct (extendFold (setOrder postIdsArray) st0 H0)
    as ((_ & Hbatch) & Hlines & Hhits).
  destruct (extendFold_puts (setOrder postIdsArray) st0) as [Hputs Hsink].
  cbn [ExtendState.totalHits ExtendState.sink st0] in Hputs, Hsink.
  split; [by rewrite Hbatch, Hlines|].
  split; [by rewrite Hhits|].
  split; [intros total; discriminate|].
  split; [rewrite Hputs; lia|].
  split; [exact Hsink|].
  split.
  { intros st questionId.
    destruct (extendStep_puts st questionId) as (Eh & Es & _). by split. }
  split.
  { intros index questionId hits question Hs Hg Hq.
    assert (Edocs : answersToExtend index questionId
                    = extendedAnswer question <$> hits).
    { unfold answersToExtend. rewrite Hs, Hg.
      by rewrite (proj2 (Z.eqb_eq _ _) Hq). }
    split; [exact Edocs|]. intros log.
    rewrite extendId_run, Edocs, Hs, Hg, length_fmap. cbn [snd].
    by destruct hits. }
  split.
  { intros index questionId Hcase. unfold answersToExtend.
    destruct Hcase as [[e Hs]|[Hs|[[e Hg]|[Hg|(question & Hg & Hq)]]]].
    - by rewrite Hs.
    - rewrite Hs.
      destruct (getDocument index questionId) as [[question|]|];
        [|reflexivity..].
      by destruct (Post.PostTypeId question =? POSTTYPEID_QUESTION).
    - rewrite Hg. by destruct (search index questionId).
    - rewrite Hg. by destruct (search index questionId).
    - rewrite Hg. apply Z.eqb_neq in Hq. rewrite Hq.
      by destruct (search index questionId). }
  split.
  { intros outcomes. unfold settledLoop.
    exact (settledLoop_fold outcomes 0 0 (Z.le_refl 0)). }
  split; [exact (extendFold_settled (setOrder postIdsArray) st0)|].
  intros Hput.
  rewrite Hsink, Hputs, (promisePutAll_refused _ _ Hput).
  rewrite (putAttempts_refused _ _ Hput). split; [reflexivity | lia].
Qed.

(** C4 fails as the design document words it: with question 1 and its
    answer 2 in the index, one answer is extended for the ids [[1]], and
    the function returns the array [[undefined]], not the number 1. *)
Lemma extendAnswersFromQuestions_does_not_return_total :
  ExtendState.totalHits (@extendLoop storeClient [1] [question1; answer2]) = 1
  ∧ sumZ (@extendedCounts storeClient [1] [question1; answer2] []) = 1
  ∧ @extendAnswersFromQuestions storeClient [1] [question1; answer2]
    = JArray [JUndefined]
  ∧ @extendAnswersFromQuestions storeClient [1] [question1; answer2] ≠ JNum 1.
Proof.
  split; [reflexivity|]. split; [reflexivity|]. split; [reflexivity|].
  discriminate.
Qed.

(** On a read-only index holding question 1 and its answers 2 and 3, the
    run over the ids [[1]] leaves the index as it was and logs the two
    refused puts, and [totalHits] is 2 all the same. *)
Example extender_counts_refused_puts :
  let st := @extendLoop readOnlyClient [1] [question1; answer2; answer3] in
  ExtendState.totalHits st = 2
  ∧ ExtendState.sink st = [question1; answer2; answer3]
  ∧ ExtendState.log st
    = [IgnoredPutDocumentError "index read-only";
       IgnoredPutDocumentError "index read-only"]
  ∧ @extendAnswersFromQuestions readOnlyClient [1] [question1; answer2; answer3]
    = JArray [JUndefined].
Proof. cbn zeta. by repeat split. Qed.

(** ** The write callbacks of the loader *)

Section WriteFacts.
Context `{ElasticClient}.

(** [indexFile]: a put refused for an invalid id is skipped without a
    line of log, and the callback returns. *)
Lemma indexFileCallback_invalid_id sink log lineObject sink' message :
  putDocument sink lineObject = (sink', Throw message) →
  String.prefix "Invalid Id" message = true →
  indexFileCallback (sink, log) lineObject = (sink', log, JNull).
Proof. intros Hput Hinv. unfold indexFileCallback. by rewrite Hput, Hinv. Qed.

(** [indexFile]: any other failed put is logged with the record, and the
    callback returns. *)
Lemma indexFileCallback_other_failure sink log lineObject sink' message :
  putDocument sink lineObject = (sink', Throw message) →
  String.prefix "Invalid Id" message = false →
  indexFileCallback (sink, log) lineObject
  = (sink', log ++ [FailedToIndexRow lineObject; ErrorLine message], JNull).
Proof. intros Hput Hinv. unfold indexFileCallback. by rewrite Hput, Hinv. Qed.

(** [indexFromPostIds]: a failed put of a wanted post is the outcome of
    the callback, and nothing is logged. *)
Lemma indexFromPostIdsCallback_failure (postIds : gset Z) st lineObject sink' message :
  Post.Id lineObject ∈ postIds →
  putDocument (LoadState.sink st) lineObject = (sink', Throw message) →
  snd (indexFromPostIdsCallback postIds None st lineObject) = Throw message
  ∧ LoadState.log (fst (indexFromPostIdsCallback postIds None st lineObject))
    = LoadState.log st.
Proof.
  intros Hin Hput. unfold indexFromPostIdsCallback.
  rewrite (bool_decide_eq_true_2 _ Hin), Hput. by split.
Qed.

End WriteFacts.

(** C6: the code at post 1 of [PostIds.json] when the server cannot be
    reached. The callback of [indexFromPostIds] hands the failure of
    [putDocument] on as its own outcome and logs nothing, and it does the
    same with the failure for an invalid id; the callback of [indexFile]
    on the same records catches the failure, logs the record and the error
    (nothing for the invalid id), and returns [null]. *)
Theorem indexFromPostIds_write_failure_is_not_caught :
  let st := @LoadState.mk downClient tt [] 0 ∅ in
  let st' := @LoadState.mk storeClient [] [] 0 ∅ in
  snd (@indexFromPostIdsCallback downClient {[1]} None st question1)
    = Throw "No Living connections"
  ∧ LoadState.log (fst (@indexFromPostIdsCallback downClient {[1]} None st question1))
    = []
  ∧ snd (@indexFromPostIdsCallback storeClient {[-1]} None st' placeholderPost)
    = Throw "Invalid Id: negative"
  ∧ @indexFileCallback downClient (tt, []) question1
    = (tt, [FailedToIndexRow question1; ErrorLine "No Living connections"], JNull)
  ∧ @indexFileCallback storeClient ([], []) placeholderPost = ([], [], JNull).
Proof.
  cbn zeta.
  destruct (@indexFromPostIdsCallback_failure downClient {[1]}
              (@LoadState.mk downClient tt [] 0 ∅) question1 tt
              "No Living connections") as [Hdown Hlog];
    [set_solver | reflexivity |].
  destruct (@indexFromPostIdsCallback_failure storeClient {[-1]}
              (@LoadState.mk storeClient [] [] 0 ∅) placeholderPost []
              "Invalid Id: negative") as [Hinvalid _];
    [set_solver | reflexivity |].
  split; [exact Hdown|]. split; [exact Hlog|]. split; [exact Hinvalid|].
  split.
  - exact (@indexFileCallback_other_failure downClient tt [] question1 tt
             "No Living connections" eq_refl eq_refl).
  - exact (@indexFileCallback_invalid_id storeClient [] [] placeholderPost []
             "Invalid Id: negative" eq_refl eq_refl).
Qed.

(** ** The scenarios of the design document, run on the embedding *)

(** Votes [(1, up), (1, up), (1, down), (2, up)] and a vote for the post 9
    that is not wanted: the totals are 1 for post 1, 1 for post 2, and no
    entry for 9 nor for the wanted post 3 that got no vote. *)
Example totalVotes_scenario :
  totalVotes [Vote.mk 1 2; Vote.mk 1 2; Vote.mk 1 3; Vote.mk 2 2; Vote.mk 9 2]
    {[1; 2; 3]}
  = {[1 := 1; 2 := 1]}.
Proof.
  apply map_eq. intros k. rewrite totalVotes_lookup.
  destruct (decide (k = 1)) as [->|H1]; [reflexivity|].
  destruct (decide (k = 2)) as [->|H2]; [reflexivity|].
  rewrite lookup_insert_ne, lookup_singleton_ne by congruence.
  destruct (decide (k = 9)) as [->|H9]; [reflexivity|].
  unfold mentions. cbn [existsb Vote.PostId].
  rewrite !(proj2 (Z.eqb_neq _ k)) by congruence.
  by rewrite andb_false_r.
Qed.

(** An empty query: the accept matcher accepts every document, the
    exclude matcher rejects none. *)
Example makeDoesMatch_empty_query `{TextLibs} (isAccept : bool) (lineObject : Post.t) :
  ∃ m, makeDoesMatch "" isAccept = Ok m ∧ m lineObject = isAccept.
Proof. eexists. split; reflexivity. Qed.

(** Seed [{1, 2, 4}], a link between posts 3 and 1, the answers 6 and 8 of
    the questions 1 and 2, and an exclude matcher that matches nothing. *)
Example resolvePostIds_scenario :
  let st := resolvePostIds (fun _ => false) [1; 2; 4] [PostLink.mk 3 1]
              [post 6 POSTTYPEID_ANSWER 1 JUndefined JUndefined JUndefined;
               post 8 POSTTYPEID_ANSWER 2 JUndefined JUndefined JUndefined] in
  postIds st = {[1; 2; 3; 4; 6; 8]}
  ∧ extendedQuestionIds st = {[1; 2; 3; 4]}
  ∧ documentCount st = 2.
Proof.
  cbn zeta. unfold resolvePostIds, postPass, linkPass, readFile.
  cbn [fold_left]. unfold linkCallback, postCallback, initialResolver.
  cbn -[elem_of union singleton difference].
  repeat (rewrite ?bool_decide_eq_true_2, ?bool_decide_eq_false_2 by set_solver;
          cbn -[elem_of union singleton difference]).
  repeat split; set_solver.
Qed.

(* ===================================================================== *)
(** * Part III: further properties of the code                           *)
(* ===================================================================== *)

(** ** The resolver: counts, bounds and order *)

Lemma ResolverState_eq (a b : ResolverState) :
  questionIds a = questionIds b →
  extendedQuestionIds a = extendedQuestionIds b →
  postIds a = postIds b →
  documentCount a = documentCount b →
  a = b.
Proof. destruct a, b. cbn. by intros -> -> -> ->. Qed.

Lemma linkCallback_count st l :
  documentCount (linkCallback st l)
  = documentCount st + seedEndpoints (questionIds st) [l].
Proof.
  unfold linkCallback. cbn [seedEndpoints].
  destruct (bool_decide (PostLink.PostId l ∈ questionIds st)); cbn;
    destruct (bool_decide (PostLink.RelatedPostId l ∈ questionIds st)); cbn; lia.
Qed.

Lemma linkPass_count postLinks : ∀ st,
  documentCount (linkPass st postLinks)
  = documentCount st + seedEndpoints (questionIds st) postLinks.
Proof.
  induction postLinks as [|l postLinks IH]; intros st; [cbn; lia|].
  change (linkPass st (l :: postLinks))
    with (linkPass (linkCallback st l) postLinks).
  rewrite IH, linkCallback_count, linkCallback_questionIds.
  cbn [seedEndpoints]. lia.
Qed.

Lemma seedEndpoints_Permutation seed postLinks postLinks' :
  Permutation postLinks postLinks' →
  seedEndpoints seed postLinks = seedEndpoints seed postLinks'.
Proof.
  induction 1 as [|l ls ls' _ IH|l l' ls|ls ls' ls'' _ IH1 _ IH2];
    cbn [seedEndpoints]; lia.
Qed.

Lemma linkedToSeed_Permutation seed postLinks postLinks' x :
  Permutation postLinks postLinks' →
  linkedToSeed seed postLinks x → linkedToSeed seed postLinks' x.
Proof.
  intros Hperm (l & Hin & Hl). exists l. split; [|exact Hl].
  by rewrite <- Hperm.
Qed.

(** X1: the count the link pass reports is the number of link endpoints
    found in the seed: a link with both endpoints in the seed counts
    twice, and a link met twice in the stream counts each time, although
    the sets gain each linked id once. *)
Theorem link_pass_counts_seed_endpoints
    (postIdsArray : list Z) (postLinks : list PostLink.t) :
  documentCount (linkPass (initialResolver postIdsArray) postLinks)
    = seedEndpoints (list_to_set postIdsArray) postLinks
  ∧ 0 ≤ seedEndpoints (list_to_set postIdsArray) postLinks
      ≤ 2 * Z.of_nat (length postLinks)
  ∧ documentCount
      (linkPass (initialResolver postIdsArray) (postLinks ++ postLinks))
    = 2 * seedEndpoints (list_to_set postIdsArray) postLinks
  ∧ postIds (linkPass (initialResolver postIdsArray) (postLinks ++ postLinks))
    = postIds (linkPass (initialResolver postIdsArray) postLinks).
Proof.
  split; [rewrite linkPass_count; cbn; lia|].
  split; [|split].
  - generalize (list_to_set postIdsArray : gset Z). intros seed.
    induction postLinks as [|l postLinks IH]; cbn [seedEndpoints length]; [lia|].
    destruct (bool_decide (PostLink.PostId l ∈ seed));
      destruct (bool_decide (PostLink.RelatedPostId l ∈ seed)); lia.
  - rewrite linkPass_count. cbn.
    generalize (list_to_set postIdsArray : gset Z). intros seed.
    induction postLinks as [|l postLinks IH]; [reflexivity|].
    cbn [app seedEndpoints].
    rewrite (seedEndpoints_Permutation seed (postLinks ++ l :: postLinks)
               (l :: (postLinks ++ postLinks))).
    + cbn [seedEndpoints]. lia.
    + symmetry. apply Permutation_middle.
  - apply set_eq. intros x.
    rewrite (proj2 (linkPass_elem (postLinks ++ postLinks) _ x)).
    rewrite (proj2 (linkPass_elem postLinks _ x)).
    split; (intros [Hx|(l & Hin & Hl)]; [by left|right; exists l; split; [|exact Hl]]).
    + apply elem_of_app in Hin. tauto.
    + apply elem_of_app. by left.
Qed.

(** X2: the link pass does not depend on the order of the link stream:
    two orders of the same links leave the same three sets and the same
    count. *)
Theorem link_pass_order_independent
    (st : ResolverState) (postLinks postLinks' : list PostLink.t) :
  Permutation postLinks postLinks' →
  linkPass st postLinks = linkPass st postLinks'.
Proof.
  intros Hperm. apply ResolverState_eq.
  - by rewrite !linkPass_questionIds.
  - apply set_eq. intros x.
    rewrite (proj1 (linkPass_elem postLinks st x)),
      (proj1 (linkPass_elem postLinks' st x)).
    split; (intros [?|Hl]; [by left|right]);
      [by apply (linkedToSeed_Permutation _ postLinks)
      |by apply (linkedToSeed_Permutation _ postLinks')].
  - apply set_eq. intros x.
    rewrite (proj2 (linkPass_elem postLinks st x)),
      (proj2 (linkPass_elem postLinks' st x)).
    split; (intros [?|Hl]; [by left|right]);
      [by apply (linkedToSeed_Permutation _ postLinks)
      |by apply (linkedToSeed_Permutation _ postLinks')].
  - rewrite !linkPass_count. f_equal. by apply seedEndpoints_Permutation.
Qed.

(** Two links in two orders, from the seed [{1}]. *)
Lemma link_pass_order_independent_witness :
  linkPass (initialResolver [1]) [PostLink.mk 1 2; PostLink.mk 3 1]
  = linkPass (initialResolver [1]) [PostLink.mk 3 1; PostLink.mk 1 2].
Proof. apply link_pass_order_independent. apply perm_swap. Defined.

Lemma postCallback_questionIds shouldReject st r :
  questionIds (postCallback shouldReject st r) = questionIds st.
Proof. post_cases shouldReject st r; reflexivity. Qed.

(** An id enters [postIds] in the post pass only as the id of an answer
    record that is admitted. *)
Lemma postCallback_added shouldReject st r x :
  x ∈ postIds (postCallback shouldReject st r) →
  x ∈ postIds st ∨ (admittedAt shouldReject st r ∧ Post.Id r = x).
Proof.
  destruct (postCallback_cases shouldReject st r)
    as [[_ ->]|[[Ha ->]|(_ & _ & ->)]]; cbn; set_solver.
Qed.

(** An id leaves a set in the post pass only as the id of a question
    record that is rejected. *)
Lemma postCallback_removed shouldReject st r x :
  (x ∈ postIds st ∧ x ∉ postIds (postCallback shouldReject st r))
  ∨ (x ∈ extendedQuestionIds st
     ∧ x ∉ extendedQuestionIds (postCallback shouldReject st r)) →
  rejectedAt shouldReject st r ∧ Post.Id r = x.
Proof.
  destruct (postCallback_cases shouldReject st r)
    as [[Hq ->]|[[_ ->]|(_ & _ & ->)]]; cbn; [|set_solver|tauto].
  intros [[Hin Hout]|[Hin Hout]]; (split; [exact Hq|]);
    destruct (decide (Post.Id r = x)); try done; set_solver.
Qed.

(** X3: what the post pass never does. It leaves the seed alone and adds
    nothing to [extendedQuestionIds]; an id it adds to [postIds] is the id
    of an answer record of the stream that the exclude matcher does not
    match and whose parent was an extended question before the pass; an id
    it takes out of [postIds] or [extendedQuestionIds] is the id of a
    question record of the stream that the exclude matcher matches and
    that was an extended question before the pass. *)
Theorem post_pass_changes_only_by_its_records
    (shouldReject : Post.t → bool) (posts : list Post.t) (st : ResolverState) :
  questionIds (postPass shouldReject st posts) = questionIds st
  ∧ extendedQuestionIds (postPass shouldReject st posts)
    ⊆ extendedQuestionIds st
  ∧ (∀ x, x ∈ postIds (postPass shouldReject st posts) →
       x ∈ postIds st
       ∨ ∃ a, a ∈ posts ∧ Post.PostTypeId a = POSTTYPEID_ANSWER
              ∧ Post.Id a = x ∧ shouldReject a = false
              ∧ Post.ParentId a ∈ extendedQuestionIds st)
  ∧ (∀ x, (x ∈ postIds st ∧ x ∉ postIds (postPass shouldReject st posts))
          ∨ (x ∈ extendedQuestionIds st
             ∧ x ∉ extendedQuestionIds (postPass shouldReject st posts)) →
       ∃ q, q ∈ posts ∧ Post.PostTypeId q = POSTTYPEID_QUESTION
            ∧ Post.Id q = x ∧ shouldReject q = true
            ∧ x ∈ extendedQuestionIds st).
Proof.
  revert st. induction posts as [|r posts IH]; intros st.
  - cbn. repeat split; try done; [tauto | intros x [[? ?]|[? ?]]; contradiction].
  - change (postPass shouldReject st (r :: posts))
      with (postPass shouldReject (postCallback shouldReject st r) posts).
    destruct (IH (postCallback shouldReject st r)) as (IHq & IHe & IHadd & IHdel).
    pose proof (postCallback_extended_shrinks shouldReject st r) as Hshrink.
    split; [by rewrite IHq, postCallback_questionIds|].
    split; [by etransitivity|].
    split.
    + intros x Hx. destruct (IHadd x Hx) as [Hx'|(a & Hin & Ha)].
      * destruct (postCallback_added _ _ _ _ Hx') as [?|[(Ht & Hp & Hm) Hid]];
          [by left|].
        right. exists r. split; [apply elem_of_cons; by left|done].
      * right. exists a. split; [apply elem_of_cons; by right|].
        destruct Ha as (? & ? & ? & Hp). repeat split; try done. by apply Hshrink.
    + intros x Hx.
      assert (Hnow : rejectedAt shouldReject st r ∧ Post.Id r = x
                     ∨ ((x ∈ postIds (postCallback shouldReject st r)
                         ∧ x ∉ postIds (postPass shouldReject
                                          (postCallback shouldReject st r) posts))
                        ∨ (x ∈ extendedQuestionIds (postCallback shouldReject st r)
                           ∧ x ∉ extendedQuestionIds
                                   (postPass shouldReject
                                      (postCallback shouldReject st r) posts)))).
      { destruct Hx as [[Hin Hout]|[Hin Hout]].
        - destruct (decide (x ∈ postIds (postCallback shouldReject st r)));
            [right; left; done|].
          left. apply postCallback_removed. by left.
        - destruct (decide (x ∈ extendedQuestionIds (postCallback shouldReject st r)));
            [right; right; done|].
          left. apply postCallback_removed. by right. }
      destruct Hnow as [[(Ht & Hin & Hm) Hid]|Hlater].
      * exists r. split; [apply elem_of_cons; by left|]. subst x. done.
      * destruct (IHdel x Hlater) as (q & Hin & Hq).
        exists q. split; [apply elem_of_cons; by right|].
        destruct Hq as (? & ? & ? & He). repeat split; try done. by apply Hshrink.
Qed.

Lemma answersOf_bounds parents posts :
  0 ≤ answersOf parents posts ≤ Z.of_nat (length posts).
Proof.
  induction posts as [|r posts IH]; cbn [answersOf length]; [lia|].
  destruct ((Post.PostTypeId r =? POSTTYPEID_ANSWER)
            && bool_decide (Post.ParentId r ∈ parents)); lia.
Qed.

Lemma answersOf_mono (parents parents' : gset Z) posts :
  parents ⊆ parents' → answersOf parents posts ≤ answersOf parents' posts.
Proof.
  intros Hsub. induction posts as [|r posts IH]; cbn [answersOf]; [lia|].
  destruct (Post.PostTypeId r =? POSTTYPEID_ANSWER); cbn [andb]; [|lia].
  destruct (bool_decide_reflect (Post.ParentId r ∈ parents)) as [Hin|_].
  - rewrite (bool_decide_eq_true_2 _ (Hsub _ Hin)). lia.
  - destruct (bool_decide (Post.ParentId r ∈ parents')); lia.
Qed.

Lemma size_add_le (x : Z) (X : gset Z) : (size ({[x]} ∪ X) ≤ S (size X))%nat.
Proof.
  rewrite size_union_alt, size_singleton.
  assert (Hsub : X ∖ {[x]} ⊆ X) by set_solver.
  apply subseteq_size in Hsub. lia.
Qed.

(** X4: the count of the post pass. It rises by one at each admitted
    answer record and by nothing else, so it is at most the number of
    answer records whose parent was an extended question before the pass,
    and the number of ids in [postIds] grows by no more than the count. *)
Theorem post_pass_count_bounds
    (shouldReject : Post.t → bool) (posts : list Post.t) (st : ResolverState) :
  documentCount st ≤ documentCount (postPass shouldReject st posts)
  ∧ documentCount (postPass shouldReject st posts)
    ≤ documentCount st + answersOf (extendedQuestionIds st) posts
  ∧ Z.of_nat (size (postIds (postPass shouldReject st posts)))
    ≤ Z.of_nat (size (postIds st))
      + (documentCount (postPass shouldReject st posts) - documentCount st).
Proof.
  revert st. induction posts as [|r posts IH]; intros st; [cbn; lia|].
  change (postPass shouldReject st (r :: posts))
    with (postPass shouldReject (postCallback shouldReject st r) posts).
  destruct (IH (postCallback shouldReject st r)) as (IHlo & IHhi & IHsize).
  pose proof (answersOf_mono _ _ posts
                (postCallback_extended_shrinks shouldReject st r)) as Hmono.
  cbn [answersOf].
  destruct (postCallback_cases shouldReject st r)
    as [[(Ht & _) E]|[[(Ht & Hp & _) E]|(_ & _ & E)]];
    rewrite E in *; cbn in *.
  - assert (Hsz : (size (postIds st ∖ {[Post.Id r]}) ≤ size (postIds st))%nat)
      by (apply subseteq_size; set_solver).
    destruct ((Post.PostTypeId r =? POSTTYPEID_ANSWER)
              && bool_decide (Post.ParentId r ∈ extendedQuestionIds st)); lia.
  - rewrite Ht, Z.eqb_refl, (bool_decide_eq_true_2 _ Hp). cbn.
    pose proof (size_add_le (Post.Id r) (postIds st)). lia.
  - destruct ((Post.PostTypeId r =? POSTTYPEID_ANSWER)
              && bool_decide (Post.ParentId r ∈ extendedQuestionIds st)); lia.
Qed.

Lemma linkPass_initial_same postIdsArray postLinks :
  postIds (linkPass (initialResolver postIdsArray) postLinks)
  = extendedQuestionIds (linkPass (initialResolver postIdsArray) postLinks).
Proof.
  apply set_eq. intros x.
  rewrite (proj1 (linkPass_elem postLinks _ x)),
    (proj2 (linkPass_elem postLinks _ x)). reflexivity.
Qed.

Lemma postPass_no_reject shouldReject posts : ∀ st,
  (∀ r, r ∈ posts → shouldReject r = false) →
  extendedQuestionIds (postPass shouldReject st posts) = extendedQuestionIds st
  ∧ documentCount (postPass shouldReject st posts)
    = documentCount st + answersOf (extendedQuestionIds st) posts
  ∧ ∀ x, x ∈ postIds (postPass shouldReject st posts)
         ↔ x ∈ postIds st
           ∨ ∃ a, a ∈ posts ∧ Post.PostTypeId a = POSTTYPEID_ANSWER
                  ∧ Post.ParentId a ∈ extendedQuestionIds st ∧ Post.Id a = x.
Proof.
  induction posts as [|r posts IH]; intros st Hno.
  - cbn. split; [done|]. split; [lia|]. intros x. split; [tauto|].
    intros [?|(a & Hin & _)]; [done|]. by apply not_elem_of_nil in Hin.
  - change (postPass shouldReject st (r :: posts))
      with (postPass shouldReject (postCallback shouldReject st r) posts).
    assert (Hr : shouldReject r = false) by (apply Hno, elem_of_cons; by left).
    destruct (IH (postCallback shouldReject st r)) as (IHe & IHc & IHp).
    { intros r' Hr'. apply Hno, elem_of_cons. by right. }
    cbn [answersOf].
    destruct (postCallback_cases shouldReject st r)
      as [[(_ & _ & Hm) _]|[[(Ht & Hp & _) E]|(_ & Hna & E)]];
      [congruence| |]; rewrite E in *; cbn in *.
    + rewrite Ht, Z.eqb_refl, (bool_decide_eq_true_2 _ Hp). cbn.
      split; [done|]. split; [lia|]. intros x. rewrite IHp. split.
      * intros [Hx|(a & Hin & Ha)].
        -- apply elem_of_union in Hx as [Hx|Hx]; [|by left].
           apply elem_of_singleton in Hx. right. exists r.
           split; [apply elem_of_cons; by left|done].
        -- right. exists a. split; [apply elem_of_cons; by right|done].
      * intros [Hx|(a & Hin & Ha)]; [left; set_solver|].
        apply elem_of_cons in Hin as [->|Hin].
        -- left. destruct Ha as (_ & _ & <-). set_solver.
        -- right. by exists a.
    + assert (Hz : (Post.PostTypeId r =? POSTTYPEID_ANSWER)
                   && bool_decide (Post.ParentId r ∈ extendedQuestionIds st)
                   = false).
      { apply andb_false_iff.
        destruct (Z.eqb_spec (Post.PostTypeId r) POSTTYPEID_ANSWER) as [Ht|];
          [|by left].
        right. apply bool_decide_eq_false_2. intros Hin. apply Hna.
        by repeat split. }
      rewrite Hz. split; [done|]. split; [lia|]. intros x. rewrite IHp. split.
      * intros [Hx|(a & Hin & Ha)]; [by left|].
        right. exists a. split; [apply elem_of_cons; by right|done].
      * intros [Hx|(a & Hin & Ha)]; [by left|].
        apply elem_of_cons in Hin as [->|Hin].
        -- exfalso. apply Hna. destruct Ha as (? & ? & _). by repeat split.
        -- right. by exists a.
Qed.

(** X5: without exclude words (none given, none configured)
    [getAllPostIds] rejects nothing and does not fail: the extended
    question ids it returns are the seed and the ids linked to the seed,
    the post ids are these and the ids of the answer records whose parent
    is one of these, and the count is the number of those records. *)
Theorem getAllPostIds_without_exclude_words `{TextLibs}
    (postIdsArray : list Z) (postLinks : list PostLink.t) (posts : list Post.t) :
  let extended :=
    extendedQuestionIds (linkPass (initialResolver postIdsArray) postLinks) in
  ∃ returnedPostIds,
    getAllPostIds "" postIdsArray postLinks posts ""
    = Ok (returnedPostIds, answersOf extended posts, extended)
    ∧ (∀ x, x ∈ returnedPostIds
            ↔ x ∈ extended
              ∨ ∃ a, a ∈ posts ∧ Post.PostTypeId a = POSTTYPEID_ANSWER
                     ∧ Post.ParentId a ∈ extended ∧ Post.Id a = x)
    ∧ (∀ x, x ∈ extended
            ↔ x ∈ postIdsArray
              ∨ linkedToSeed (list_to_set postIdsArray) postLinks x).
Proof.
  cbn zeta. unfold getAllPostIds, makeDoesMatch. cbn [String.eqb].
  set (st := resetCount (linkPass (initialResolver postIdsArray) postLinks)).
  destruct (postPass_no_reject (fun _ => false) posts st) as (He & Hc & Hp);
    [done|].
  eexists. split; [|split].
  - cbn. unfold resolvePostIds. fold st. rewrite He, Hc. cbn.
    repeat f_equal.
  - intros x. unfold resolvePostIds. fold st. rewrite Hp. cbn.
    by rewrite linkPass_initial_same.
  - intros x. rewrite (proj1 (linkPass_elem postLinks _ x)). cbn.
    by rewrite elem_of_list_to_set.
Qed.

(** ** The tag-filtered id extractor *)

Lemma processPost_included shouldInclude postIds lineObject :
  processPost shouldInclude postIds lineObject
  = postIds ++ includedId shouldInclude lineObject.
Proof.
  unfold processPost, includedId, POSTTYPEID_QUESTION.
  destruct lineObject as [d|]; [|by rewrite app_nil_r].
  destruct (Z.eqb_spec (Post.PostTypeId d) 1) as [->|Hne]; cbn.
  - destruct (shouldInclude d); [reflexivity | by rewrite app_nil_r].
  - rewrite orb_true_r. by rewrite app_nil_r.
Qed.

Lemma readFile_processPost shouldInclude posts : ∀ postIds,
  readFile (processPost shouldInclude) posts postIds
  = postIds ++ flat_map (includedId shouldInclude) posts.
Proof.
  induction posts as [|o posts IH]; intros postIds; cbn.
  - by rewrite app_nil_r.
  - change (fold_left (processPost shouldInclude) posts
              (processPost shouldInclude postIds o))
      with (readFile (processPost shouldInclude) posts
              (processPost shouldInclude postIds o)).
    rewrite IH, processPost_included. by rewrite <- app_assoc.
Qed.

Lemma questionIdsMatching_flat_map shouldInclude posts :
  questionIdsMatching shouldInclude posts
  = flat_map (includedId shouldInclude) posts.
Proof. unfold questionIdsMatching. by rewrite readFile_processPost. Qed.

Lemma includedIds_sublist shouldInclude posts :
  flat_map (includedId shouldInclude) posts `sublist_of` omap streamId posts.
Proof.
  induction posts as [|o posts IH]; [constructor|].
  cbn [flat_map omap list_omap]. destruct o as [d|]; cbn.
  - destruct ((Post.PostTypeId d =? POSTTYPEID_QUESTION) && shouldInclude d);
      cbn; [by apply sublist_skip | by apply sublist_cons].
  - exact IH.
Qed.

(** X6: the ids [getQuestionIdsByTags] collects are the ids of the line
    objects that are questions and that the include matcher accepts, no
    others ([null] lines and posts of another type never contribute), in
    the order of the stream; so they are without repeats when the ids of
    the stream are, and reading a stream in two parts gives the two
    results one after the other. *)
Theorem question_ids_are_the_accepted_questions_in_stream_order
    (shouldInclude : Post.t → bool) (posts posts' : list (option Post.t)) :
  (∀ x, x ∈ questionIdsMatching shouldInclude posts
        ↔ ∃ d, Some d ∈ posts ∧ Post.PostTypeId d = POSTTYPEID_QUESTION
               ∧ shouldInclude d = true ∧ Post.Id d = x)
  ∧ questionIdsMatching shouldInclude posts `sublist_of` omap streamId posts
  ∧ (NoDup (omap streamId posts) →
     NoDup (questionIdsMatching shouldInclude posts))
  ∧ questionIdsMatching shouldInclude (posts ++ posts')
    = questionIdsMatching shouldInclude posts
      ++ questionIdsMatching shouldInclude posts'.
Proof.
  rewrite !questionIdsMatching_flat_map.
  split; [|split; [|split]].
  - intros x. rewrite list_elem_of_In, in_flat_map. split.
    + intros (o & Hin & Hx). destruct o as [d|]; [|destruct Hx].
      cbn in Hx.
      destruct (Z.eqb_spec (Post.PostTypeId d) POSTTYPEID_QUESTION) as [Ht|];
        [|destruct Hx].
      destruct (shouldInclude d) eqn:Hm; [|destruct Hx].
      destruct Hx as [<-|[]]. exists d. by rewrite list_elem_of_In.
    + intros (d & Hin & Ht & Hm & <-). exists (Some d).
      split; [by apply list_elem_of_In|]. cbn.
      rewrite Ht, Z.eqb_refl, Hm. by left.
  - apply includedIds_sublist.
  - intros Hnodup. eapply sublist_NoDup; [exact Hnodup|].
    apply includedIds_sublist.
  - apply flat_map_app.
Qed.

(** Without include words (none given, none configured)
    [getQuestionIdsByTags] does not fail and returns the id of every
    question of the stream, in order. *)
Lemma getQuestionIdsByTags_without_include_words `{TextLibs}
    (posts : list (option Post.t)) :
  getQuestionIdsByTags "" posts ""
  = Ok (flat_map (includedId (fun _ => true)) posts)
  ∧ ∀ d, Some d ∈ posts → Post.PostTypeId d = POSTTYPEID_QUESTION →
         ∃ ids, getQuestionIdsByTags "" posts "" = Ok ids ∧ Post.Id d ∈ ids.
Proof.
  assert (E : getQuestionIdsByTags "" posts ""
              = Ok (flat_map (includedId (fun _ => true)) posts)).
  { unfold getQuestionIdsByTags, makeDoesMatch. cbn [String.eqb]. cbn.
    by rewrite questionIdsMatching_flat_map. }
  split; [exact E|].
  intros d Hin Ht. eexists. split; [exact E|].
  rewrite list_elem_of_In, in_flat_map. exists (Some d).
  split; [by apply list_elem_of_In|]. cbn. rewrite Ht, Z.eqb_refl. by left.
Qed.

(** ** From the include filter to the post set *)

Lemma postPass_keeps_unrejected shouldReject posts x : ∀ st,
  x ∈ extendedQuestionIds st → x ∈ postIds st →
  (∀ q, q ∈ posts → Post.Id q = x → shouldReject q = false) →
  x ∈ extendedQuestionIds (postPass shouldReject st posts)
  ∧ x ∈ postIds (postPass shouldReject st posts).
Proof.
  induction posts as [|r posts IH]; intros st He Hp Hno; [done|].
  change (postPass shouldReject st (r :: posts))
    with (postPass shouldReject (postCallback shouldReject st r) posts).
  assert (Hr : Post.Id r = x → shouldReject r = false)
    by (apply Hno, elem_of_cons; by left).
  apply IH.
  - destruct (postCallback_cases shouldReject st r)
      as [[(_ & _ & Hm) ->]|[[_ ->]|(_ & _ & ->)]]; cbn; [|done|done].
    apply elem_of_difference. split; [done|]. intros Hx.
    apply elem_of_singleton in Hx. symmetry in Hx. specialize (Hr Hx). congruence.
  - destruct (postCallback_cases shouldReject st r)
      as [[(_ & _ & Hm) ->]|[[_ ->]|(_ & _ & ->)]]; cbn; [|set_solver|done].
    apply elem_of_difference. split; [done|]. intros Hx.
    apply elem_of_singleton in Hx. symmetry in Hx. specialize (Hr Hx). congruence.
  - intros q Hq. apply Hno, elem_of_cons. by right.
Qed.

(** X7: the two filters in a row. A question of [Posts.xml] that the
    include matcher accepts is a seed of the resolver; when the exclude
    matcher matches no record that carries its id, it is in the post ids
    and in the extended question ids that the resolver returns, whatever
    the links and the other posts are. *)
Theorem accepted_question_not_excluded_is_kept
    (shouldInclude shouldReject : Post.t → bool)
    (postLinks : list PostLink.t) (posts : list Post.t) (d : Post.t) :
  d ∈ posts →
  Post.PostTypeId d = POSTTYPEID_QUESTION →
  shouldInclude d = true →
  (∀ q, q ∈ posts → Post.Id q = Post.Id d → shouldReject q = false) →
  Post.Id d ∈ questionIdsMatching shouldInclude (Some <$> posts)
  ∧ Post.Id d ∈ extendedQuestionIds
      (resolvePostIds shouldReject
         (questionIdsMatching shouldInclude (Some <$> posts)) postLinks posts)
  ∧ Post.Id d ∈ postIds
      (resolvePostIds shouldReject
         (questionIdsMatching shouldInclude (Some <$> posts)) postLinks posts).
Proof.
  intros Hin Ht Hm Hno.
  assert (Hseed : Post.Id d ∈ questionIdsMatching shouldInclude (Some <$> posts)).
  { rewrite questionIdsMatching_flat_map, list_elem_of_In, in_flat_map.
    exists (Some d). split.
    - apply list_elem_of_In, list_elem_of_fmap. by exists d.
    - cbn. rewrite Ht, Z.eqb_refl, Hm. by left. }
  split; [exact Hseed|].
  unfold resolvePostIds.
  apply postPass_keeps_unrejected; [| |exact Hno]; cbn.
  - apply (proj1 (linkPass_elem postLinks _ _)). left. cbn.
    by apply elem_of_list_to_set.
  - apply (proj2 (linkPass_elem postLinks _ _)). left. cbn.
    by apply elem_of_list_to_set.
Qed.

(** Question 1, accepted by every include matcher and not matched by an
    exclude matcher that matches nothing, with its answers. *)
Lemma accepted_question_not_excluded_is_kept_witness :
  Post.Id question1
    ∈ questionIdsMatching (fun _ => true) (Some <$> [answer2; question1; answer3])
  ∧ Post.Id question1 ∈ extendedQuestionIds
      (resolvePostIds (fun _ => false)
         (questionIdsMatching (fun _ => true) (Some <$> [answer2; question1; answer3]))
         [] [answer2; question1; answer3])
  ∧ Post.Id question1 ∈ postIds
      (resolvePostIds (fun _ => false)
         (questionIdsMatching (fun _ => true) (Some <$> [answer2; question1; answer3]))
         [] [answer2; question1; answer3]).
Proof.
  apply (accepted_question_not_excluded_is_kept (fun _ => true) (fun _ => false)
           [] [answer2; question1; answer3] question1).
  - apply elem_of_cons. right. apply elem_of_cons. by left.
  - reflexivity.
  - reflexivity.
  - reflexivity.
Defined.

(** ** The vote aggregator: count, chunks and bounds *)

Lemma voteCallback_size (postIds : gset Z) st lineObject :
  VoteState.documentCount st = Z.of_nat (size (VoteState.voteTotals st)) →
  VoteState.documentCount (voteCallback postIds st lineObject)
  = Z.of_nat (size (VoteState.voteTotals (voteCallback postIds st lineObject))).
Proof.
  intros Hinv. unfold voteCallback.
  destruct (bool_decide (Vote.PostId lineObject ∈ postIds)); [|exact Hinv].
  destruct (VoteState.voteTotals st !! Vote.PostId lineObject) as [count|] eqn:Hl;
    cbn.
  - rewrite map_size_insert_Some by eauto. exact Hinv.
  - rewrite map_size_insert_None by exact Hl. lia.
Qed.

Lemma netScore_app k votes votes' :
  netScore k (votes ++ votes') = netScore k votes + netScore k votes'.
Proof. induction votes as [|v votes IH]; cbn [app netScore]; lia. Qed.

Lemma mentions_app k votes votes' :
  mentions k (votes ++ votes') = mentions k votes || mentions k votes'.
Proof. unfold mentions. apply existsb_app. Qed.

Lemma netScore_bounds k votes :
  - votesFor k votes ≤ netScore k votes ≤ votesFor k votes.
Proof.
  induction votes as [|v votes IH]; cbn [netScore votesFor]; [lia|].
  unfold voteDelta.
  destruct (Vote.PostId v =? k); [|lia].
  destruct (Vote.VoteTypeId v =? VOTETYPEID_UPMOD); [lia|].
  destruct (Vote.VoteTypeId v =? VOTETYPEID_DOWNMOD); lia.
Qed.

(** X8: the count [totalVotes] reports to the progress callback is, after
    every vote read, the number of entries of the map: each wanted post is
    counted once, when its first vote is read, however many votes follow. *)
Theorem totalVotes_counts_each_post_once
    (votes : list Vote.t) (wantedIds : gset Z) :
  VoteState.documentCount
    (readFile (voteCallback wantedIds) votes
       {| VoteState.voteTotals := ∅; VoteState.documentCount := 0 |})
  = Z.of_nat (size (totalVotes votes wantedIds))
  ∧ (size (totalVotes votes wantedIds) ≤ size wantedIds)%nat
  ∧ (size (totalVotes votes wantedIds) ≤ length votes)%nat.
Proof.
  split; [|split].
  - unfold totalVotes.
    assert (Hgen : ∀ l st,
              VoteState.documentCount st
              = Z.of_nat (size (VoteState.voteTotals st)) →
              VoteState.documentCount (readFile (voteCallback wantedIds) l st)
              = Z.of_nat (size (VoteState.voteTotals
                                  (readFile (voteCallback wantedIds) l st)))).
    { induction l as [|v l IH]; intros st Hst; [exact Hst|].
      apply (IH (voteCallback wantedIds st v)). by apply voteCallback_size. }
    apply Hgen. cbn. by rewrite ?map_size_empty.
  - rewrite <- size_dom. apply subseteq_size. intros k Hk.
    apply elem_of_dom in Hk as [s Hs]. rewrite totalVotes_lookup in Hs.
    destruct (bool_decide_reflect (k ∈ wantedIds)); [done|discriminate].
  - unfold totalVotes.
    assert (Hlen : ∀ l st,
              (size (VoteState.voteTotals (readFile (voteCallback wantedIds) l st))
               ≤ size (VoteState.voteTotals st) + length l)%nat).
    { induction l as [|v l IH]; intros st; [cbn; lia|].
      change (readFile (voteCallback wantedIds) (v :: l) st)
        with (readFile (voteCallback wantedIds) l (voteCallback wantedIds st v)).
      specialize (IH (voteCallback wantedIds st v)).
      assert ((size (VoteState.voteTotals (voteCallback wantedIds st v))
               ≤ S (size (VoteState.voteTotals st)))%nat).
      { unfold voteCallback.
        destruct (bool_decide (Vote.PostId v ∈ wantedIds)); [|lia].
        destruct (VoteState.voteTotals st !! Vote.PostId v) eqn:Hl; cbn.
        - rewrite map_size_insert_Some by eauto. lia.
        - rewrite map_size_insert_None by exact Hl. lia. }
      cbn [length]. lia. }
    etransitivity; [apply Hlen|]. cbn. rewrite ?map_size_empty. lia.
Qed.

(** X9: votes read in two parts. The totals of a stream are the totals
    of its two parts added up entry by entry, an entry present in one part
    only being kept as it is. *)
Theorem totalVotes_of_two_parts
    (votes votes' : list Vote.t) (wantedIds : gset Z) :
  totalVotes (votes ++ votes') wantedIds
  = union_with (fun count count' => Some (count + count'))
      (totalVotes votes wantedIds) (totalVotes votes' wantedIds).
Proof.
  apply map_eq. intros k.
  rewrite lookup_union_with, !totalVotes_lookup, mentions_app, netScore_app.
  destruct (bool_decide (k ∈ wantedIds)); cbn [andb]; [|reflexivity].
  destruct (mentions k votes) eqn:Hm; destruct (mentions k votes') eqn:Hm'; cbn.
  - reflexivity.
  - by rewrite (netScore_unmentioned _ _ Hm'), Z.add_0_r.
  - by rewrite (netScore_unmentioned _ _ Hm).
  - reflexivity.
Qed.

(** X10: a total is between minus and plus the number of votes read for
    the post, and it is the number of upmods less the number of downmods
    the post got. *)
Theorem totalVotes_within_number_of_votes
    (votes : list Vote.t) (wantedIds : gset Z) (k score : Z) :
  totalVotes votes wantedIds !! k = Some score →
  - votesFor k votes ≤ score ≤ votesFor k votes
  ∧ 1 ≤ votesFor k votes
  ∧ score
    = votesFor k (List.filter (fun v => Vote.VoteTypeId v =? VOTETYPEID_UPMOD) votes)
      - votesFor k (List.filter (fun v => Vote.VoteTypeId v =? VOTETYPEID_DOWNMOD) votes).
Proof.
  rewrite totalVotes_lookup. intros Hl.
  destruct (bool_decide (k ∈ wantedIds)); [|discriminate].
  destruct (mentions k votes) eqn:Hm; [|discriminate].
  cbn in Hl. injection Hl as <-.
  split; [apply netScore_bounds|]. split.
  - clear -Hm. unfold mentions in Hm.
    induction votes as [|v votes IH]; cbn in *; [discriminate|].
    assert (0 ≤ votesFor k votes).
    { clear. induction votes as [|w votes IH]; cbn [votesFor]; [lia|].
      destruct (Vote.PostId w =? k); lia. }
    destruct (Vote.PostId v =? k); [lia|]. cbn in Hm. specialize (IH Hm). lia.
  - clear. induction votes as [|v votes IH]; [reflexivity|].
    cbn [netScore List.filter]. unfold voteDelta.
    destruct (Z.eqb_spec (Vote.VoteTypeId v) VOTETYPEID_UPMOD) as [Hu|Hu].
    + assert (Hd : (Vote.VoteTypeId v =? VOTETYPEID_DOWNMOD) = false).
      { apply Z.eqb_neq. rewrite Hu. discriminate. }
      rewrite Hd. cbn [votesFor]. destruct (Vote.PostId v =? k); lia.
    + destruct (Vote.VoteTypeId v =? VOTETYPEID_DOWNMOD);
        cbn [votesFor]; destruct (Vote.PostId v =? k); lia.
Qed.

(** Two upmods and a downmod for post 1. *)
Lemma totalVotes_within_number_of_votes_witness :
  - votesFor 1 [Vote.mk 1 2; Vote.mk 1 3; Vote.mk 1 2] ≤ 1
    ≤ votesFor 1 [Vote.mk 1 2; Vote.mk 1 3; Vote.mk 1 2]
  ∧ 1 ≤ votesFor 1 [Vote.mk 1 2; Vote.mk 1 3; Vote.mk 1 2]
  ∧ 1 = votesFor 1 (List.filter (fun v => Vote.VoteTypeId v =? VOTETYPEID_UPMOD)
                      [Vote.mk 1 2; Vote.mk 1 3; Vote.mk 1 2])
        - votesFor 1 (List.filter (fun v => Vote.VoteTypeId v =? VOTETYPEID_DOWNMOD)
                        [Vote.mk 1 2; Vote.mk 1 3; Vote.mk 1 2]).
Proof.
  apply (totalVotes_within_number_of_votes
           [Vote.mk 1 2; Vote.mk 1 3; Vote.mk 1 2] {[1]} 1 1).
  reflexivity.
Defined.

(** ** The loader: what is put, counted and collected *)

Section LoaderStreamFacts.
Context `{ElasticClient}.

Lemma indexFromPostIdsCallback_wanted (postIds : gset Z) voteTotals st d :
  Post.Id d ∈ postIds →
  fst (indexFromPostIdsCallback postIds voteTotals st d)
  = {| LoadState.sink :=
         fst (putDocument (LoadState.sink st) (withVotes voteTotals d));
       LoadState.log := LoadState.log st;
       LoadState.documentCount := LoadState.documentCount st + 1;
       LoadState.userIds := {[Post.OwnerUserId d]} ∪ LoadState.userIds st |}.
Proof.
  intros Hin. unfold indexFromPostIdsCallback, withVotes.
  rewrite (bool_decide_eq_true_2 _ Hin).
  destruct voteTotals as [totals|];
    [destruct (putDocument (LoadState.sink st) (withVoteCount totals d))
    |destruct (putDocument (LoadState.sink st) d)]; reflexivity.
Qed.

Lemma indexFromPostIdsCallback_unwanted (postIds : gset Z) voteTotals st d :
  Post.Id d ∉ postIds →
  indexFromPostIdsCallback postIds voteTotals st d = (st, Ok JUndefined).
Proof.
  intros Hout. unfold indexFromPostIdsCallback.
  by rewrite (bool_decide_eq_false_2 _ Hout).
Qed.

Lemma indexFromPostIdsCalls_fields (postIds : gset Z) voteTotals records : ∀ st,
  LoadState.documentCount (indexFromPostIdsCalls postIds voteTotals st records)
    = LoadState.documentCount st + wantedPosts postIds records
  ∧ LoadState.log (indexFromPostIdsCalls postIds voteTotals st records)
    = LoadState.log st
  ∧ LoadState.sink (indexFromPostIdsCalls postIds voteTotals st records)
    = putAll (LoadState.sink st)
        (withVotes voteTotals <$> filter (λ d, Post.Id d ∈ postIds) records)
  ∧ ∀ u, u ∈ LoadState.userIds
               (indexFromPostIdsCalls postIds voteTotals st records)
         ↔ u ∈ LoadState.userIds st
           ∨ ∃ d, d ∈ records ∧ Post.Id d ∈ postIds ∧ Post.OwnerUserId d = u.
Proof.
  induction records as [|d records IH]; intros st.
  - cbn. split; [lia|]. split; [done|]. split; [done|]. intros u.
    split; [tauto|]. intros [?|(d & Hd & _)]; [done|].
    by apply not_elem_of_nil in Hd.
  - change (indexFromPostIdsCalls postIds voteTotals st (d :: records))
      with (indexFromPostIdsCalls postIds voteTotals
              (fst (indexFromPostIdsCallback postIds voteTotals st d)) records).
    destruct (IH (fst (indexFromPostIdsCallback postIds voteTotals st d)))
      as (IHc & IHl & IHs & IHu).
    cbn [wantedPosts]. destruct (decide (Post.Id d ∈ postIds)) as [Hin|Hout].
    + rewrite (bool_decide_eq_true_2 _ Hin), filter_cons_True by exact Hin.
      rewrite (indexFromPostIdsCallback_wanted _ _ _ _ Hin) in *.
      cbn -[filter] in *.
      split; [lia|]. split; [done|]. split; [exact IHs|].
      intros u. rewrite IHu. split.
      * intros [Hu|(d' & Hd' & Hw)].
        -- apply elem_of_union in Hu as [Hu|Hu]; [|by left].
           apply elem_of_singleton in Hu. right. exists d.
           split; [apply elem_of_cons; by left|done].
        -- right. exists d'. split; [apply elem_of_cons; by right|done].
      * intros [Hu|(d' & Hd' & Hw)]; [left; set_solver|].
        apply elem_of_cons in Hd' as [->|Hd'].
        -- left. destruct Hw as [_ <-]. set_solver.
        -- right. by exists d'.
    + rewrite (bool_decide_eq_false_2 _ Hout), filter_cons_False by exact Hout.
      rewrite (indexFromPostIdsCallback_unwanted _ _ _ _ Hout) in *.
      cbn -[filter] in *.
      split; [lia|]. split; [done|]. split; [exact IHs|].
      intros u. rewrite IHu. split.
      * intros [Hu|(d' & Hd' & Hw)]; [by left|].
        right. exists d'. split; [apply elem_of_cons; by right|done].
      * intros [Hu|(d' & Hd' & Hw)]; [by left|].
        apply elem_of_cons in Hd' as [->|Hd']; [by destruct Hw|].
        right. by exists d'.
Qed.

End LoaderStreamFacts.

(** X11: what [indexFromPostIds] has done once its callback has been
    called on the posts of a stream: it has put the wanted posts, and only
    them, in order, each with its vote count when the votes were totalled;
    the count is the number of wanted records and the user ids have gained
    the owners of exactly these records, whether the puts failed or not;
    and it has logged nothing. *)
Theorem indexFromPostIds_puts_counts_and_collects `{ElasticClient}
    (postIds : gset Z) (voteTotals : option (gmap Z Z))
    (st : LoadState.t) (records : list Post.t) :
  let st' := indexFromPostIdsCalls postIds voteTotals st records in
  LoadState.sink st'
    = putAll (LoadState.sink st)
        (withVotes voteTotals <$> filter (λ d, Post.Id d ∈ postIds) records)
  ∧ LoadState.documentCount st'
    = LoadState.documentCount st + wantedPosts postIds records
  ∧ (∀ u, u ∈ LoadState.userIds st'
          ↔ u ∈ LoadState.userIds st
            ∨ ∃ d, d ∈ records ∧ Post.Id d ∈ postIds ∧ Post.OwnerUserId d = u)
  ∧ LoadState.log st' = LoadState.log st.
Proof.
  cbn zeta.
  destruct (indexFromPostIdsCalls_fields postIds voteTotals records st)
    as (Hc & Hl & Hs & Hu).
  done.
Qed.

(** X12: the vote count put with a wanted post is the net score of the
    post in [Votes.xml], 0 when the post got no vote; nothing else of the
    post is changed. *)
Theorem indexed_post_carries_its_net_score
    (votes : list Vote.t) (postIds : gset Z) (d : Post.t) :
  Post.Id d ∈ postIds →
  let d' := withVotes (Some (totalVotes votes postIds)) d in
  Post.VoteCount d' = JNum (netScore (Post.Id d) votes)
  ∧ (mentions (Post.Id d) votes = false → Post.VoteCount d' = JNum 0)
  ∧ (Post.Id d', Post.PostTypeId d', Post.ParentId d', Post.OwnerUserId d')
    = (Post.Id d, Post.PostTypeId d, Post.ParentId d, Post.OwnerUserId d)
  ∧ (Post.Title d', Post.Body d', Post.Tags d', Post.ViewCount d',
     Post.QuestionTitle d')
    = (Post.Title d, Post.Body d, Post.Tags d, Post.ViewCount d,
       Post.QuestionTitle d).
Proof.
  intros Hin. cbn zeta. cbn [withVotes withVoteCount Post.VoteCount].
  assert (E : default 0 (totalVotes votes postIds !! Post.Id d)
              = netScore (Post.Id d) votes).
  { rewrite totalVotes_lookup, (bool_decide_eq_true_2 _ Hin). cbn [andb].
    destruct (mentions (Post.Id d) votes) eqn:Hm; [reflexivity|].
    by rewrite (netScore_unmentioned _ _ Hm). }
  rewrite E. split; [reflexivity|]. split; [|split; reflexivity].
  intros Hm. by rewrite (netScore_unmentioned _ _ Hm).
Qed.

(** Question 1 with an upmod, a downmod and an upmod. *)
Lemma indexed_post_carries_its_net_score_witness :
  Post.VoteCount
    (withVotes (Some (totalVotes [Vote.mk 1 2; Vote.mk 1 3; Vote.mk 1 2] {[1]}))
       question1)
  = JNum (netScore (Post.Id question1) [Vote.mk 1 2; Vote.mk 1 3; Vote.mk 1 2]).
Proof.
  apply (indexed_post_carries_its_net_score
           [Vote.mk 1 2; Vote.mk 1 3; Vote.mk 1 2] {[1]} question1).
  cbn. set_solver.
Defined.

(** X13: the users that are indexed after the posts. A user is indexed
    exactly when its id is not negative and is in the user ids, that is,
    was there before the posts were read or owns a wanted post of the
    stream; a negative id is never indexed, even when it owns one. *)
Theorem user_is_indexed_when_it_owns_a_wanted_post `{ElasticClient}
    (postIds : gset Z) (voteTotals : option (gmap Z Z))
    (st : LoadState.t) (records : list Post.t) (user : User.t) :
  (shouldIndexUser
     (LoadState.userIds (indexFromPostIdsCalls postIds voteTotals st records))
     user = true
   ↔ 0 ≤ User.Id user
     ∧ (User.Id user ∈ LoadState.userIds st
        ∨ ∃ d, d ∈ records ∧ Post.Id d ∈ postIds
               ∧ Post.OwnerUserId d = User.Id user))
  ∧ (User.Id user < 0 → ∀ userIds, shouldIndexUser userIds user = false).
Proof.
  destruct (indexFromPostIdsCalls_fields postIds voteTotals records st)
    as (_ & _ & _ & Hu).
  split.
  - unfold shouldIndexUser. destruct (Z.ltb_spec (User.Id user) 0) as [Hneg|Hpos].
    + split; [discriminate | lia].
    + rewrite bool_decide_eq_true, Hu. tauto.
  - intros Hneg userIds. unfold shouldIndexUser.
    by rewrite (proj2 (Z.ltb_lt _ _) Hneg).
Qed.

(** ** [indexFile] *)

Section IndexFileFacts.
Context `{IndexAdmin}.

Lemma indexFileCalls_runs records : ∀ sink log,
  ∃ lines,
    indexFileCalls (sink, log) records = (putAll sink records, log ++ lines)
    ∧ (length lines ≤ 2 * length records)%nat
    ∧ (onlyInvalidIds → lines = [])
    ∧ ∀ line, line ∈ lines →
        (∃ d, d ∈ records ∧ line = FailedToIndexRow d)
        ∨ ∃ message, line = ErrorLine message
                     ∧ String.prefix "Invalid Id" message = false.
Proof.
  induction records as [|d records IH]; intros sink log.
  - exists []. cbn. rewrite app_nil_r. repeat split; try done.
    intros line Hl. by apply not_elem_of_nil in Hl.
  - change (indexFileCalls (sink, log) (d :: records))
      with (indexFileCalls (fst (indexFileCallback (sink, log) d)) records).
    change (putAll sink (d :: records))
      with (putAll (fst (putDocument sink d)) records).
    unfold indexFileCallback.
    destruct (putDocument sink d) as [sink' [result|message]] eqn:Hput; cbn [fst].
    + destruct (IH sink' log) as (lines & E & Hlen & Hinv & Hlines).
      exists lines. rewrite E. split; [done|]. split; [cbn [length]; lia|].
      split; [done|]. intros line Hl.
      destruct (Hlines line Hl) as [(d' & Hd' & ->)|?]; [|by right].
      left. exists d'. split; [apply elem_of_cons; by right|done].
    + destruct (String.prefix "Invalid Id" message) eqn:Hp; cbn [fst].
      * destruct (IH sink' log) as (lines & E & Hlen & Hinv & Hlines).
        exists lines. rewrite E. split; [done|]. split; [cbn [length]; lia|].
        split; [done|]. intros line Hl.
        destruct (Hlines line Hl) as [(d' & Hd' & ->)|?]; [|by right].
        left. exists d'. split; [apply elem_of_cons; by right|done].
      * destruct (IH sink' (log ++ [FailedToIndexRow d; ErrorLine message]))
          as (lines & E & Hlen & Hinv & Hlines).
        exists ([FailedToIndexRow d; ErrorLine message] ++ lines).
        rewrite E, <- app_assoc. split; [done|].
        split; [cbn [length app]; lia|]. split.
        -- intros Honly. specialize (Honly _ _ _ _ Hput). congruence.
        -- intros line Hl. cbn [app] in Hl.
           apply elem_of_cons in Hl as [->|Hl];
             [left; exists d; split; [apply elem_of_cons; by left|done]|].
           apply elem_of_cons in Hl as [->|Hl]; [right; by exists message|].
           destruct (Hlines line Hl) as [(d' & Hd' & ->)|?]; [|by right].
           left. exists d'. split; [apply elem_of_cons; by right|done].
Qed.

End IndexFileFacts.

(** X14: [indexFile] reads the whole file. A failure of [deleteIndex] is
    ignored; a failure of [createIndex] rejects before any record is put;
    otherwise every record of the stream is put, in order, whatever the
    puts before it gave, and [indexFile] fulfils. The log holds at most two
    lines for a record, a line for a row being for a record of the stream
    and a line for an error never being for an invalid id; it is empty
    when puts fail for invalid ids only. *)
Theorem indexFile_puts_every_record `{IndexAdmin}
    (sink : Sink) (records : list Post.t) :
  let created := createIndex (fst (deleteIndex sink)) in
  (∀ e, snd created = Throw e →
        indexFile sink records = (fst created, [], Throw e))
  ∧ (∀ r, snd created = Ok r →
       ∃ log,
         indexFile sink records = (putAll (fst created) records, log, Ok tt)
         ∧ (length log ≤ 2 * length records)%nat
         ∧ (onlyInvalidIds → log = [])
         ∧ ∀ line, line ∈ log →
             (∃ d, d ∈ records ∧ line = FailedToIndexRow d)
             ∨ ∃ message, line = ErrorLine message
                          ∧ String.prefix "Invalid Id" message = false).
Proof.
  cbn zeta. unfold indexFile.
  destruct (deleteIndex sink) as [sink1 deleted]. cbn [fst].
  destruct (createIndex sink1) as [sink2 [r|e]]; cbn [fst snd].
  - split; [discriminate|]. intros _ _.
    destruct (indexFileCalls_runs records sink2 []) as (lines & E & Hl).
    rewrite E. exists lines. done.
  - split; [|discriminate]. intros e' He. by injection He as <-.
Qed.

(** ** The answer extender: outcomes, repeats and failures *)

Section ExtenderOutcomes.
Context `{ElasticClient}.



End ExtenderOutcomes.


Lemma setOrder_elem array x : x ∈ setOrder array ↔ x ∈ array.
Proof.
  induction array as [|y array IH]; [done|].
  cbn [setOrder]. rewrite !elem_of_cons, list_elem_of_filter, IH.
  destruct (Z.eqb_spec x y) as [->|Hne]; cbn; [tauto|].
  split; [tauto|]. intros [?|?]; [tauto|]. right. by split.
Qed.

Lemma setOrder_NoDup array : NoDup (setOrder array).
Proof.
  induction array as [|y array IH]; [constructor|].
  cbn [setOrder]. constructor.
  - rewrite list_elem_of_filter. intros [Hne _]. by rewrite Z.eqb_refl in Hne.
  - by apply NoDup_filter.
Qed.

Lemma filter_keeps_all (P : Z → Prop) `{∀ x, Decision (P x)} (l : list Z) :
  (∀ x, x ∈ l → P x) → filter P l = l.
Proof.
  induction l as [|y l IH]; intros Hall; [done|].
  rewrite filter_cons_True by (apply Hall, elem_of_cons; by left).
  f_equal. apply IH. intros x Hx. apply Hall, elem_of_cons. by right.
Qed.

Lemma setOrder_of_NoDup array : NoDup array → setOrder array = array.
Proof.
  induction 1 as [|y array Hy Hnd IH]; [done|].
  cbn [setOrder]. rewrite IH. f_equal. apply filter_keeps_all.
  intros x Hx. destruct (Z.eqb_spec x y) as [->|]; [contradiction | done].
Qed.

Lemma setOrder_length array : (length (setOrder array) ≤ length array)%nat.
Proof.
  induction array as [|y array IH]; [done|].
  cbn [setOrder length].
  pose proof (length_filter (λ z, negb (z =? y)) (setOrder array)). lia.
Qed.

Lemma filter_drops_all (P : Z → Prop) `{∀ x, Decision (P x)} (l : list Z) :
  (∀ x, x ∈ l → ¬ P x) → filter P l = [].
Proof.
  induction l as [|y l IH]; intros Hnone; [done|].
  rewrite filter_cons_False by (apply Hnone, elem_of_cons; by left).
  apply IH. intros x Hx. apply Hnone, elem_of_cons. by right.
Qed.

Lemma setOrder_app l1 l2 :
  setOrder (l1 ++ l2) = setOrder l1 ++ filter (λ z, z ∉ l1) (setOrder l2).
Proof.
  induction l1 as [|y l1 IH].
  - cbn [app setOrder]. symmetry. apply filter_keeps_all.
    intros x _. apply not_elem_of_nil.
  - cbn [app setOrder]. rewrite IH, filter_app, list_filter_filter.
    cbn [app]. do 2 f_equal. apply list_filter_iff. intros x.
    rewrite not_elem_of_cons. destruct (Z.eqb_spec x y); cbn; tauto.
Qed.

Lemma setOrder_snoc l x :
  setOrder (l ++ [x])
  = if bool_decide (x ∈ l) then setOrder l else setOrder l ++ [x].
Proof.
  rewrite setOrder_app. cbn [setOrder filter].
  case_bool_decide as Hx.
  - rewrite filter_drops_all; [by rewrite app_nil_r|].
    intros z Hz%list_elem_of_singleton Hout. by subst.
  - rewrite filter_keeps_all; [reflexivity|].
    intros z Hz%list_elem_of_singleton. by subst.
Qed.

Lemma setOrder_first_occurrence l1 x l2 :
  x ∉ l1 →
  setOrder (l1 ++ x :: l2)
  = setOrder l1 ++ x :: filter (λ z, z ∉ l1 ++ [x]) (setOrder l2).
Proof.
  intros Hx. rewrite setOrder_app. cbn [setOrder]. f_equal.
  rewrite filter_cons_True by exact Hx. f_equal.
  rewrite list_filter_filter. apply list_filter_iff. intros z.
  rewrite not_elem_of_app, list_elem_of_singleton.
  destruct (Z.eqb_spec z x); cbn; tauto.
Qed.

(** X16: [extendAnswersFromQuestions] goes through each question id of
    [ExtendedQuestionIds.json] once, in the order of its first occurrence:
    the ids gone through are those of the array, without repeats, as many
    as [linesRead] counts, and an array with its repeats removed gives the
    same run. The order is that of a [Set] filled from the array: an id
    is put last when it is met for the first time and left where it is
    when it is met again, so the ids of any beginning of the array come
    first, and an id comes right after the ids that occur before its
    first occurrence. *)
Theorem extender_goes_through_each_id_once `{ElasticClient}
    (postIdsArray : list Z) (sink : Sink) :
  NoDup (setOrder postIdsArray)
  ∧ (∀ x, x ∈ setOrder postIdsArray ↔ x ∈ postIdsArray)
  ∧ (length (setOrder postIdsArray) ≤ length postIdsArray)%nat
  ∧ ExtendState.linesRead (extendLoop postIdsArray sink)
    = Z.of_nat (length (setOrder postIdsArray))
  ∧ extendLoop (setOrder postIdsArray) sink = extendLoop postIdsArray sink
  ∧ extendLoop (postIdsArray ++ postIdsArray) sink = extendLoop postIdsArray sink
  ∧ setOrder [] = []
  ∧ (∀ array x,
       setOrder (array ++ [x])
       = if bool_decide (x ∈ array) then setOrder array
         else setOrder array ++ [x])
  ∧ (∀ read rest,
       postIdsArray = read ++ rest →
       setOrder postIdsArray
       = setOrder read ++ filter (λ z, z ∉ read) (setOrder rest))
  ∧ (∀ read x rest,
       postIdsArray = read ++ x :: rest → x ∉ read →
       setOrder postIdsArray
       = setOrder read ++ x :: filter (λ z, z ∉ read ++ [x]) (setOrder rest))
  ∧ (∀ read rest,
       postIdsArray = read ++ rest →
       extendLoop postIdsArray sink
       = fold_left extendStep (filter (λ z, z ∉ read) (setOrder rest))
           (extendLoop read sink)).
Proof.
  split; [apply setOrder_NoDup|]. split; [apply setOrder_elem|].
  split; [apply setOrder_length|]. split; [|split; [|split]].
  - unfold extendLoop.
    set (st0 := {| ExtendState.sink := sink; ExtendState.log := [];
                   ExtendState.linesRead := 0; ExtendState.totalHits := 0;
                   ExtendState.promiseBatch := [] |}).
    assert (H0 : batchSettled st0) by (split; [cbn; lia | reflexivity]).
    destruct (extendFold (setOrder postIdsArray) st0 H0) as (_ & -> & _).
    cbn. lia.
  - unfold extendLoop. by rewrite (setOrder_of_NoDup _ (setOrder_NoDup _)).
  - unfold extendLoop. f_equal. rewrite setOrder_app.
    rewrite filter_drops_all; [by rewrite app_nil_r|].
    intros x Hx Hout. apply Hout. by apply setOrder_elem.
  - split; [reflexivity|]. split; [apply setOrder_snoc|].
    split; [intros read rest ->; apply setOrder_app|].
    split; [intros read x rest -> Hx; by apply setOrder_first_occurrence|].
    intros read rest ->. unfold extendLoop.
    by rewrite setOrder_app, fold_left_app.
Qed.

Section ExtenderFailures.
Context `{ElasticClient}.

Lemma extendFold_all_rejected ids : ∀ st,
  (∀ q, q ∈ ids → ∃ e, search (ExtendState.sink st) q = Throw e) →
  ExtendState.sink (fold_left extendStep ids st) = ExtendState.sink st
  ∧ ExtendState.log (fold_left extendStep ids st) = ExtendState.log st
  ∧ ExtendState.totalHits (fold_left extendStep ids st) = ExtendState.totalHits st.
Proof.
  induction ids as [|q ids IH]; intros st Hfail; [done|].
  cbn [fold_left].
  destruct (Hfail q) as [e He]; [apply elem_of_cons; by left|].
  assert (Estep : ExtendState.sink (extendStep st q) = ExtendState.sink st
                  ∧ ExtendState.log (extendStep st q) = ExtendState.log st
                  ∧ ExtendState.totalHits (extendStep st q)
                    = ExtendState.totalHits st).
  { unfold extendStep, extendId. rewrite He. done. }
  destruct Estep as (Es & El & Et).
  destruct (IH (extendStep st q)) as (-> & -> & ->); [|done].
  intros q' Hq'. rewrite Es. apply Hfail, elem_of_cons. by right.
Qed.

End ExtenderFailures.

(** X17: a search that fails stops nothing. When the search of every
    question id is rejected, [extendAnswersFromQuestions] still goes
    through all the ids and fulfils with its array of [undefined]; it has
    written nothing, logged nothing and counted no answer. *)
Theorem extender_swallows_rejected_searches `{ElasticClient}
    (postIdsArray : list Z) (sink : Sink) :
  (∀ q, q ∈ postIdsArray → ∃ e, search sink q = Throw e) →
  ExtendState.sink (extendLoop postIdsArray sink) = sink
  ∧ ExtendState.log (extendLoop postIdsArray sink) = []
  ∧ ExtendState.totalHits (extendLoop postIdsArray sink) = 0
  ∧ ExtendState.linesRead (extendLoop postIdsArray sink)
    = Z.of_nat (length (setOrder postIdsArray))
  ∧ extendAnswersFromQuestions postIdsArray sink
    = JArray (repeat JUndefined
                (pendingPromises (Z.of_nat (length (setOrder postIdsArray))))).
Proof.
  intros Hfail. unfold extendAnswersFromQuestions, extendLoop.
  set (st0 := {| ExtendState.sink := sink; ExtendState.log := [];
                 ExtendState.linesRead := 0; ExtendState.totalHits := 0;
                 ExtendState.promiseBatch := [] |}).
  assert (H0 : batchSettled st0) by (split; [cbn; lia | reflexivity]).
  destruct (extendFold (setOrder postIdsArray) st0 H0)
    as ((_ & Hbatch) & Hlines & _).
  destruct (extendFold_all_rejected (setOrder postIdsArray) st0)
    as (Hs & Hl & Ht).
  { intros q Hq. cbn. apply Hfail. by apply setOrder_elem. }
  split; [exact Hs|]. split; [exact Hl|]. split; [exact Ht|].
  split; [rewrite Hlines; cbn; lia|].
  rewrite Hbatch, Hlines. reflexivity.
Qed.

(** Two question ids and a server that cannot be reached. *)
Lemma extender_swallows_rejected_searches_witness :
  ExtendState.sink (@extendLoop downClient [1; 2] tt) = tt
  ∧ ExtendState.log (@extendLoop downClient [1; 2] tt) = []
  ∧ ExtendState.totalHits (@extendLoop downClient [1; 2] tt) = 0
  ∧ ExtendState.linesRead (@extendLoop downClient [1; 2] tt)
    = Z.of_nat (length (setOrder [1; 2]))
  ∧ @extendAnswersFromQuestions downClient [1; 2] tt
    = JArray (repeat JUndefined
                (pendingPromises (Z.of_nat (length (setOrder [1; 2]))))).
Proof.
  apply (@extender_swallows_rejected_searches downClient [1; 2] tt).
  intros q _. by exists "No Living connections".
Defined.

(** ** The matcher: case, query words and fields *)

Lemma lowerChar_idempotent c : lowerChar (lowerChar c) = lowerChar c.
Proof. destruct c as [[] [] [] [] [] [] [] []]; reflexivity. Qed.

Lemma toLowerCase_idempotent s : toLowerCase (toLowerCase s) = toLowerCase s.
Proof.
  induction s as [|c s IH]; [reflexivity|].
  cbn [toLowerCase]. by rewrite lowerChar_idempotent, IH.
Qed.

Lemma toLowerCase_eqb_empty s :
  String.eqb (toLowerCase s) "" = String.eqb s "".
Proof. by destruct s. Qed.

Section MatcherMore.
Context `{TextLibs}.

Lemma stemmedWords_lower text :
  stemmedWords (JStr (toLowerCase text)) = stemmedWords (JStr text).
Proof. unfold stemmedWords. by rewrite toLowerCase_idempotent. Qed.

(** The [try] block computes a test on words, or throws, before it looks
    at the query words. *)
Lemma tryMatch_factor isAccept lineObject :
  ∃ test : exc (string → bool),
    ∀ testWords,
      tryMatch testWords isAccept lineObject
      = match test with
        | Ok hit => Ok (existsb hit testWords)
        | Throw e => Throw e
        end.
Proof.
  unfold tryMatch.
  match goal with
  | |- context [mbind _ ?e] => destruct e as [title|e0]
  end; [|by exists (Throw e0)].
  cbn [mbind exc_bind].
  destruct (plainWords title) as [titleWords|e1]; [|by exists (Throw e1)].
  cbn [mbind exc_bind].
  match goal with
  | |- context [mbind _ ?e] => destruct e as [tagWords|e2]
  end; [|by exists (Throw e2)].
  cbn [mbind exc_bind].
  match goal with
  | |- context [mbind _ ?e] => destruct e as [bodyWords|e3]
  end; [|by exists (Throw e3)].
  cbn [mbind exc_bind].
  by exists (Ok (fun word => andHas titleWords word || andHas tagWords word
                            || andHas bodyWords word)).
Qed.

End MatcherMore.

(** X18: the matcher does not see the case of letters. A query and its
    lower-cased form make the same matcher, a text and its lower-cased
    form have the same word set, and two documents that differ only in the
    case of their tags are matched alike. *)
Theorem matcher_ignores_case `{TextLibs}
    (testString text : string) (isAccept : bool) :
  makeDoesMatch (toLowerCase testString) isAccept
    = makeDoesMatch testString isAccept
  ∧ stemmedWords (JStr (toLowerCase text)) = stemmedWords (JStr text)
  ∧ ∀ testWords d d',
      Post.Title d' = Post.Title d → Post.Body d' = Post.Body d →
      Post.Tags d = JStr text → Post.Tags d' = JStr (toLowerCase text) →
      matcher testWords isAccept d' = matcher testWords isAccept d.
Proof.
  split; [|split].
  - unfold makeDoesMatch, testWordsOf.
    by rewrite toLowerCase_eqb_empty, toLowerCase_idempotent.
  - apply stemmedWords_lower.
  - intros testWords d d' Ht Hb Hg Hg'. unfold matcher, tryMatch.
    rewrite Ht, Hb, Hg, Hg', stemmedWords_lower.
    replace (truthy (JStr (toLowerCase text))) with (truthy (JStr text));
      [reflexivity|].
    cbn. by rewrite toLowerCase_eqb_empty.
Qed.

(** X19: a query matches when one of its words does. The result for a
    list of query words is the disjunction of the results for its parts,
    so neither the order of the words nor a repeated word matters; and
    with no query word at all the matcher returns [true] only from its
    [catch]. *)
Theorem matcher_matches_any_query_word `{TextLibs}
    (testWords testWords' : list string) (isAccept : bool) (lineObject : Post.t) :
  matcher (testWords ++ testWords') isAccept lineObject
    = matcher testWords isAccept lineObject
      || matcher testWords' isAccept lineObject
  ∧ matcher (testWords' ++ testWords) isAccept lineObject
    = matcher (testWords ++ testWords') isAccept lineObject
  ∧ matcher (testWords ++ testWords) isAccept lineObject
    = matcher testWords isAccept lineObject
  ∧ (matcher [] isAccept lineObject = true
     ↔ ∃ e, tryMatch [] isAccept lineObject = Throw e).
Proof.
  destruct (tryMatch_factor isAccept lineObject) as [test Htest].
  unfold matcher. rewrite !Htest.
  destruct test as [hit|e]; cbn.
  - rewrite !existsb_app. split; [done|]. split; [apply orb_comm|].
    split; [apply orb_diag|]. split; [discriminate|]. by intros [e ?].
  - repeat split; try done. by exists e.
Qed.

Lemma mapM_exc_back {A B : Type} (f : A → exc B) (l : list A) : ∀ (k : list B) y,
  mapM f l = Ok k → In y k → ∃ x, In x l ∧ f x = Ok y.
Proof.
  induction l as [|a l IH]; intros k y Hmap Hin.
  - cbn in Hmap. injection Hmap as <-. destruct Hin.
  - cbn in Hmap. destruct (f a) as [b|] eqn:Hfa; [|discriminate].
    cbn in Hmap. destruct (mapM f l) as [k'|] eqn:Hk'; [|discriminate].
    cbn in Hmap. injection Hmap as <-.
    destruct Hin as [<-|Hin].
    + exists a. split; [by left | exact Hfa].
    + destruct (IH k' y eq_refl Hin) as (x & Hx & Hfx).
      exists x. split; [by right | exact Hfx].
Qed.

Lemma existsb_mono (f g : string → bool) (l : list string) :
  (∀ w, f w = true → g w = true) → existsb f l = true → existsb g l = true.
Proof.
  intros Hfg Hf. apply existsb_exists in Hf as (w & Hin & Hw).
  apply existsb_exists. exists w. auto.
Qed.

(** X20: the fields the matcher reads. The accept matcher reads the title
    and the tags only: two documents with the same title and tags get the
    same answer from it, whatever their bodies. And a document that has
    no title, no tags and no body is matched by no query, by either kind
    of matcher. *)
Theorem matcher_reads_title_tags_and_body `{TextLibs}
    (testWords : list string) :
  (∀ d d', Post.Title d' = Post.Title d → Post.Tags d' = Post.Tags d →
           matcher testWords true d' = matcher testWords true d)
  ∧ (∀ isAccept d,
       truthy (Post.Title d) = false → truthy (Post.Tags d) = false →
       truthy (Post.Body d) = false →
       matcher testWords isAccept d = false).
Proof.
  split.
  - intros d d' Ht Hg. unfold matcher, tryMatch. rewrite Ht, Hg. reflexivity.
  - intros isAccept d Ht Hg Hb. unfold matcher, tryMatch, plainWords, js_or.
    rewrite Ht, Hg, Hb. cbn. rewrite andb_false_r. cbn.
    destruct isAccept; cbn; induction testWords as [|w ws IH]; cbn; done.
Qed.

(** X21: the word set of a text, exactly. A word is in it when it is the
    stem of a piece of the lower-cased text cut at the characters outside
    [[a-z0-9-]], or the stem of a part, between hyphens, of such a stem
    that contains a hyphen; and nothing else is in it. *)
Theorem stemmedWords_are_the_stems_of_pieces_and_parts `{TextLibs}
    (text : string) (wordSet : list string) :
  stemmedWords (JStr text) = Ok wordSet →
  ∀ word,
    In word wordSet
    ↔ (∃ piece, In piece (split isSeparator (toLowerCase text))
                ∧ stemmer piece = Ok word)
      ∨ (∃ piece stem part,
           In piece (split isSeparator (toLowerCase text))
           ∧ stemmer piece = Ok stem
           ∧ includesHyphen stem = true
           ∧ In part (split isHyphen stem)
           ∧ stemmer part = Ok word).
Proof.
  intros Hws word. cbn in Hws.
  destruct (mapM stemmer (split isSeparator (toLowerCase text)))
    as [wordArray|] eqn:Harr; [|discriminate].
  cbn in Hws.
  destruct (mapM _ wordArray) as [subWords|] eqn:Hsub; [|discriminate].
  cbn in Hws. injection Hws as <-.
  rewrite in_app_iff, in_concat. split.
  - intros [Hw|(sub & Hsubin & Hw)].
    + left. by apply (mapM_exc_back _ _ _ _ Harr).
    + destruct (mapM_exc_back _ _ _ _ Hsub Hsubin) as (stem & Hstem & Hparts).
      destruct (includesHyphen stem) eqn:Hh.
      * destruct (mapM_exc_back _ _ _ _ Hparts Hw) as (part & Hpart & Hpw).
        destruct (mapM_exc_back _ _ _ _ Harr Hstem) as (piece & Hpiece & Hps).
        right. by exists piece, stem, part.
      * cbn in Hparts. injection Hparts as <-. destruct Hw.
  - intros [(piece & Hpiece & Hps)|(piece & stem & part & Hpiece & Hps & Hh & Hpart & Hpw)].
    + left. by apply (mapM_exc_In _ _ _ piece word Harr).
    + right.
      assert (Hstem : In stem wordArray)
        by (by apply (mapM_exc_In _ _ _ piece stem Harr)).
      destruct (mapM stemmer (split isHyphen stem)) as [parts|e] eqn:Hparts.
      * exists parts. split.
        -- apply (mapM_exc_In _ _ _ stem parts Hsub Hstem). by rewrite Hh.
        -- by apply (mapM_exc_In _ _ _ part word Hparts).
      * exfalso. clear -Hsub Hstem Hh Hparts.
        revert subWords Hsub. induction wordArray as [|a l IH]; intros k Hk;
          [destruct Hstem|].
        cbn in Hk. destruct Hstem as [->|Hin].
        -- rewrite Hh, Hparts in Hk. discriminate.
        -- destruct (if includesHyphen a then _ else _); [|discriminate].
           cbn in Hk. destruct (mapM _ l) as [k'|] eqn:Hk'; [|discriminate].
           by apply (IH Hin k').
Qed.

(** The tags [site-promotion faq] with the stemmer that keeps its word. *)
Lemma stemmedWords_are_the_stems_of_pieces_and_parts_witness :
  In "promotion" ["site-promotion"; "faq"; "site"; "promotion"]
  ↔ (∃ piece, In piece (split isSeparator (toLowerCase "site-promotion faq"))
              ∧ @stemmer plainLibs piece = Ok "promotion")
    ∨ (∃ piece stem part,
         In piece (split isSeparator (toLowerCase "site-promotion faq"))
         ∧ @stemmer plainLibs piece = Ok stem
         ∧ includesHyphen stem = true
         ∧ In part (split isHyphen stem)
         ∧ @stemmer plainLibs part = Ok "promotion").
Proof.
  apply (@stemmedWords_are_the_stems_of_pieces_and_parts plainLibs
           "site-promotion faq" ["site-promotion"; "faq"; "site"; "promotion"]).
  reflexivity.
Defined.

(** X22: what the accept matcher matches, the exclude matcher made for
    the same query words matches too: it reads the same title and tags,
    and the body besides. *)
Theorem exclude_matcher_matches_what_accept_matcher_does `{TextLibs}
    (testWords : list string) (lineObject : Post.t) :
  matcher testWords true lineObject = true →
  matcher testWords false lineObject = true.
Proof.
  unfold matcher, tryMatch. cbn [negb andb].
  set (title0 := js_or (Post.Title lineObject) (JStr "")).
  set (body0 := js_or (Post.Body lineObject) (JStr "")).
  set (tags := if truthy (Post.Tags lineObject)
               then Some <$> stemmedWords (Post.Tags lineObject)
               else mret None).
  destruct (truthy title0) eqn:Ht; cbn [negb andb mbind exc_bind mret exc_ret].
  - destruct (plainWords title0) as [titleWords|]; cbn; [|done].
    destruct tags as [tagWords|]; cbn; [|done].
    destruct (plainWords body0) as [bodyWords|]; cbn; [|done].
    apply existsb_mono. intros w. cbn. rewrite orb_false_r.
    intros ->. reflexivity.
  - assert (Hnone : plainWords title0 = Ok None)
      by (unfold plainWords; by rewrite Ht).
    rewrite Hnone. cbn [mbind exc_bind].
    destruct (if truthy body0 then bodyAsTitle body0 else mret title0)
      as [title|]; cbn; [|by destruct tags].
    destruct (plainWords title) as [titleWords|]; cbn; [|by destruct tags].
    destruct tags as [tagWords|]; cbn; [|done].
    destruct (plainWords body0) as [bodyWords|]; cbn; [|done].
    apply existsb_mono. intros w. cbn. rewrite orb_false_r.
    intros ->. by rewrite orb_true_r.
Qed.

(** The question titled [Spam] and the query word [spam]. *)
Lemma exclude_matcher_matches_what_accept_matcher_does_witness :
  @matcher plainLibs ["spam"] false question1 = true.
Proof.
  apply (@exclude_matcher_matches_what_accept_matcher_does plainLibs).
  reflexivity.
Defined.
